(** * Page behaviour script of the portfolio site (js/main.js)

    A shallow embedding of the event handlers that js/main.js installs and
    of the set-up routines that install them, with the properties the
    site's behaviour description states about them.

    Conventions of the embedding:
    - a JavaScript value that may be [null]/[undefined] is an [option];
    - a handler that can raise returns a [completion];
    - what a handler does to the outside world (calls on the event, on
      other elements) is the list of [effect]s it returns, in call order;
    - [Date.now()], [clientY], scroll offsets and widths are integers ([Z]);
    - element collections returned by [querySelectorAll] are lists in
      document order, an element being named by its position. *)

From Stdlib Require Import ZArith Lia Ascii.
From stdpp Require Import gmap strings list functions.

Local Open Scope Z_scope.
Local Open Scope string_scope.
Local Open Scope list_scope.

(** ** Completions and effects *)

Inductive jsError := TypeError | SyntaxError | NotFoundError.

Inductive completion (A : Type) :=
| Normal (a : A)
| Throw (e : jsError).
Arguments Normal {A} a.
Arguments Throw {A} e.

#[global] Instance completion_ret : MRet completion := fun A a => Normal a.

#[global] Instance completion_bind : MBind completion := fun A B k c =>
  match c with
  | Normal a => k a
  | Throw e => Throw e
  end.

(** Member access on a nullable reference: [x.f] raises a TypeError when
    [x] is [null]. *)
Definition deref {A} (x : option A) : completion A :=
  match x with
  | Some a => Normal a
  | None => Throw TypeError
  end.

(** Truthiness of a nullable reference, as tested by [if (x)] / [if (!x)]. *)
Definition truthy {A} (x : option A) : bool :=
  match x with Some _ => true | None => false end.

(** Elements are named by the collection they were selected from. *)
Inductive elem :=
| EWindow
| EDocument
| EHeader
| EImg (i : nat)
| EAnchor (i : nat)
| ECard (i : nat)
| EGridItem (i : nat)
| ELink (id : nat)
| ENode (id : nat).

Inductive effect :=
| PreventDefault
| Click (target : elem)
| Focus (target : elem)
| ScrollIntoView (target : elem) (behavior block : string).

(** ** Strings: the three matching operators of attribute selectors *)

Fixpoint starts_with (pre s : string) : bool :=
  match pre, s with
  | EmptyString, _ => true
  | String a pre', String b s' => bool_decide (a = b) && starts_with pre' s'
  | String _ _, EmptyString => false
  end.

(** [includes needle s]: [needle] occurs somewhere in [s]
    (the [*=] operator, [String.prototype.includes]). *)
Fixpoint includes (needle s : string) : bool :=
  starts_with needle s ||
  match s with
  | EmptyString => false
  | String _ s' => includes needle s'
  end.

(** [ends_with suf s]: [s] ends in [suf] (the [$=] operator). *)
Fixpoint ends_with (suf s : string) : bool :=
  bool_decide (s = suf) ||
  match s with
  | EmptyString => false
  | String _ s' => ends_with suf s'
  end.

(** ** Breakpoint classifier (getBreakpoint) *)

Module Breakpoint.

Definition getBreakpoint (innerWidth : Z) : string :=
  let width := innerWidth in
  if bool_decide (width <= 480) then "mobile"
  else if bool_decide (width <= 768) then "tablet"
  else "desktop".

End Breakpoint.

(** ** Responsive header (the scroll listener of setupResponsiveNavigation) *)

Module Header.

(** What the listener reads from [window] and [document] when it runs. *)
Record viewport := {
  pageYOffset : Z;
  docScrollTop : Z;     (* document.documentElement.scrollTop *)
  innerWidth : Z
}.

(** [header.style.transform] and the closure variable [lastScrollTop]. *)
Record state := {
  transform : string;
  lastScrollTop : Z
}.

Definition hidden : string := "translateY(-100%)".
Definition shown : string := "translateY(0)".

(** [let lastScrollTop = 0]; the inline style starts empty. *)
Definition init : state := {| transform := ""; lastScrollTop := 0 |}.

(** [window.pageYOffset || document.documentElement.scrollTop]:
    a number is falsy exactly when it is 0. *)
Definition scrollTop_of (v : viewport) : Z :=
  if bool_decide (pageYOffset v = 0) then docScrollTop v else pageYOffset v.

Definition onScroll (v : viewport) (st : state) : state :=
  let scrollTop := scrollTop_of v in
  let t :=
    if bool_decide (innerWidth v <= 768) then
      if bool_decide (scrollTop > lastScrollTop st) && bool_decide (scrollTop > 100)
      then hidden else shown
    else shown in
  {| transform := t; lastScrollTop := scrollTop |}.

(** The header's transform after each event of a sequence. *)
Fixpoint trace (vs : list viewport) (st : state) : list string :=
  match vs with
  | [] => []
  | v :: vs' => let st' := onScroll v st in transform st' :: trace vs' st'
  end.

(** Successive phases of a trace: runs of equal values collapsed. *)
Fixpoint phases (l : list string) : list string :=
  match l with
  | [] => []
  | x :: l' =>
      match l' with
      | [] => [x]
      | y :: _ => if bool_decide (x = y) then phases l' else x :: phases l'
      end
  end.

End Header.

(** ** Keyboard activation shared by cards and grid items *)

Definition isActivationKey (key : string) : bool :=
  bool_decide (key = "Enter") || bool_decide (key = " ").

(** ** Project cards (setupProjectCardInteractions) *)

Module Card.

(** The card's keydown listener; [link] is the closure's
    [card.querySelector('.project-link')]. *)
Definition onKeydown (link : option elem) (key : string) : completion (list effect) :=
  if isActivationKey key then
    l ← deref link; Normal [PreventDefault; Click l]
  else Normal [].

End Card.

Module Touch.

(** The three closure variables of one card. *)
Record state := {
  touchStartTime : Z;
  touchStartY : Z;
  isTouchScrolling : bool
}.

Definition init : state :=
  {| touchStartTime := 0; touchStartY := 0; isTouchScrolling := false |}.

(** A touchstart or touchmove event always lists at least one touch;
    [clientY] is [e.touches[0].clientY], [now] is [Date.now()]. *)
Inductive event :=
| TouchStart (now clientY : Z)
| TouchMove (clientY : Z)
| TouchEnd (now : Z).

Definition onTouchStart (now clientY : Z) (st : state) : state :=
  {| touchStartTime := now; touchStartY := clientY; isTouchScrolling := false |}.

Definition onTouchMove (clientY : Z) (st : state) : state :=
  let touchMoveY := clientY in
  let deltaY := Z.abs (touchMoveY - touchStartY st) in
  if bool_decide (deltaY > 10) then
    {| touchStartTime := touchStartTime st;
       touchStartY := touchStartY st;
       isTouchScrolling := true |}
  else st.

Definition isTap (now : Z) (st : state) : bool :=
  let touchEndTime := now in
  let touchDuration := touchEndTime - touchStartTime st in
  negb (isTouchScrolling st) && bool_decide (touchDuration < 500).

Definition onTouchEnd (link : option elem) (now : Z) (st : state)
  : completion (list effect) :=
  if isTap now st then
    l ← deref link; Normal [PreventDefault; Click l]
  else Normal [].

(** One event delivered to the card's three touch listeners. *)
Definition step (link : option elem) (ev : event) (st : state)
  : completion (state * list effect) :=
  match ev with
  | TouchStart now y => Normal (onTouchStart now y st, [])
  | TouchMove y => Normal (onTouchMove y st, [])
  | TouchEnd now => effs ← onTouchEnd link now st; Normal (st, effs)
  end.

(** A sequence of events; the effects of each event are kept apart. *)
Fixpoint run (link : option elem) (evs : list event) (st : state)
  : completion (state * list (list effect)) :=
  match evs with
  | [] => Normal (st, [])
  | ev :: evs' =>
      r ← step link ev st;
      r' ← run link evs' r.1;
      Normal (r'.1, r.2 :: r'.2)
  end.

Definition isTouchStart (ev : event) : bool :=
  match ev with TouchStart _ _ => true | _ => false end.

(** Some touchmove of [evs] is more than 10 units away from [y0]. *)
Definition movedBeyond (y0 : Z) (evs : list event) : Prop :=
  ∃ y, TouchMove y ∈ evs ∧ Z.abs (y - y0) > 10.

End Touch.

(** ** The selectors a fragment link hands to document.querySelector *)

Module Dom.

Definition isDigit (c : ascii) : bool :=
  let n := nat_of_ascii c in (48 <=? n)%nat && (n <=? 57)%nat.

(** A letter or an underscore. *)
Definition isNameStart (c : ascii) : bool :=
  let n := nat_of_ascii c in
  ((65 <=? n)%nat && (n <=? 90)%nat) || ((97 <=? n)%nat && (n <=? 122)%nat) ||
  (n =? 95)%nat.

(** A letter, an underscore, a digit or a hyphen. *)
Definition isNameChar (c : ascii) : bool :=
  isNameStart c || isDigit c || (nat_of_ascii c =? 45)%nat.

Fixpoint allNameChars (s : string) : bool :=
  match s with
  | EmptyString => true
  | String c s' => isNameChar c && allNameChars s'
  end.

(** A plain identifier: a letter or underscore followed by letters,
    underscores, digits and hyphens. *)
Definition plainIdent (name : string) : bool :=
  match name with
  | EmptyString => false
  | String c rest => isNameStart c && allNameChars rest
  end.

Definition startsWithDigit (name : string) : bool :=
  match name with
  | EmptyString => false
  | String c _ => isDigit c
  end.

(** [document.getElementById]: [doc] lists the elements that carry an id,
    in document order. *)
Fixpoint getElementById (doc : list (string * elem)) (name : string) : option elem :=
  match doc with
  | [] => None
  | (i, el) :: doc' => if bool_decide (i = name) then Some el else getElementById doc' name
  end.

(** [document.querySelector] on what a fragment link gives it. ["#name"]
    with [name] a plain identifier is an id selector and selects the first
    element with that id. ["#"] followed by a digit is not a selector (the
    name of an id selector must be an identifier, and an identifier cannot
    start with a digit): the call raises SyntaxError. Every other selector
    is left to [other]. *)
Definition querySelector (doc : list (string * elem))
    (other : string -> completion (option elem)) (sel : string)
  : completion (option elem) :=
  match sel with
  | String "#" name =>
      if plainIdent name then Normal (getElementById doc name)
      else if startsWithDigit name then Throw SyntaxError
      else other sel
  | _ => other sel
  end.

End Dom.

(** ** Smooth scrolling to fragments (setupSmoothScrolling) *)

Module SmoothScroll.

(** The selector [a[href^="#"]]. *)
Definition selected (href : option string) : bool :=
  match href with
  | Some h => starts_with "#" h
  | None => false
  end.

(** [document.querySelector(x)] converts its argument to a string;
    [getAttribute] gives [null] for a missing attribute. *)
Definition selector_of (href : option string) : string :=
  default "null" href.

Section WithDocument.
(** [document.querySelector]: the first element matching a selector,
    [null] when there is none, a SyntaxError for an invalid selector. *)
Variable querySelector : string -> completion (option elem).

(** The click listener; [href] is [link.getAttribute('href')] at the
    time of the click. *)
Definition onClick (href : option string) : completion (list effect) :=
  if bool_decide (href = Some "#") then Normal []
  else
    target ← querySelector (selector_of href);
    match target with
    | Some t => Normal [PreventDefault; ScrollIntoView t "smooth" "start"]
    | None => Normal []
    end.
End WithDocument.

End SmoothScroll.

(** ** Grid items and the Escape key (setupKeyboardNavigation) *)

Module Grid.

(** [gridItems[j]] of a NodeList of [n] grid items. *)
Definition item (n : nat) (j : Z) : option elem :=
  if bool_decide (0 <= j < Z.of_nat n) then Some (EGridItem (Z.to_nat j)) else None.

(** The keydown listener of the item at position [index]; [n] is
    [gridItems.length]. *)
Definition onKeydown (n : nat) (index : nat) (link : option elem) (key : string)
  : completion (list effect) :=
  activation ←
    (if isActivationKey key then
       l ← deref link; Normal [PreventDefault; Click l]
     else Normal []);
  arrows ←
    (if bool_decide (key = "ArrowRight") && bool_decide (Z.of_nat index < Z.of_nat n - 1) then
       t ← deref (item n (Z.of_nat index + 1)); Normal [PreventDefault; Focus t]
     else if bool_decide (key = "ArrowLeft") && bool_decide (Z.of_nat index > 0) then
       t ← deref (item n (Z.of_nat index - 1)); Normal [PreventDefault; Focus t]
     else Normal []);
  Normal (activation ++ arrows).

(** The document's keydown listener; [backLink] is
    [document.querySelector('.back-link')] at the time of the event. *)
Definition onDocumentKeydown (backLink : option elem) (key : string)
  : completion (list effect) :=
  if bool_decide (key = "Escape") then
    if truthy backLink then
      l ← deref backLink; Normal [Click l]
    else Normal []
  else Normal [].

End Grid.

(** ** Images *)

(** The attributes and properties of an [img] element the script touches. *)
Record Img := {
  src : option string;         (* the src attribute *)
  data_src : option string;    (* the data-src attribute, read as dataset.src *)
  classList : list string;
  display : string;            (* style.display *)
  parentNode : option nat      (* the parent element, [None] when detached *)
}.

(** *** Lazy loading (the observer callback of setupImageLazyLoading) *)

Module LazyLoad.

Record entry := {
  target : nat;
  isIntersecting : bool
}.

(** The images, by position in [document.querySelectorAll('img')], and
    the set of images the observer watches. *)
Record state := {
  images : nat -> Img;
  observed : gset nat
}.

(** [if (img.dataset.src)]: [undefined] and the empty string are falsy. *)
Definition hasDeferredSource (img : Img) : bool :=
  match data_src img with
  | Some s => negb (bool_decide (s = ""))
  | None => false
  end.

(** [img.src = img.dataset.src; img.removeAttribute('data-src');
    img.classList.remove('lazy')]. *)
Definition load (img : Img) : Img :=
  {| src := data_src img;
     data_src := None;
     classList := filter (λ c, c ≠ "lazy") (classList img);
     display := display img;
     parentNode := parentNode img |}.

Definition onEntry (e : entry) (st : state) : state :=
  if isIntersecting e then
    let img := images st (target e) in
    if hasDeferredSource img then
      {| images := alter load (target e) (images st);
         observed := observed st ∖ {[target e]} |}
    else st
  else st.

(** [entries.forEach(...)]. *)
Definition callback (entries : list entry) (st : state) : state :=
  foldl (λ s e, onEntry e s) st entries.

Definition isLazy (img : Img) : bool := bool_decide ("lazy" ∈ classList img).

End LazyLoad.

(** *** Placeholder for an image that failed to load
        (the error listener of setupErrorHandling) *)

Inductive child :=
| CImg (i : nat)
| CPlaceholder (className cssText textContent : string)
| COther (id : nat).

#[global] Instance child_eq_dec : EqDecision child.
Proof. solve_decision. Defined.

Module ErrorFallback.

Definition nl : string := String "010"%char EmptyString.

(** The template literal assigned to [placeholder.style.cssText]. *)
Definition placeholderCss : string :=
  nl +:+ "                    width: 100%;"
  +:+ nl +:+ "                    height: 200px;"
  +:+ nl +:+ "                    background-color: #f0f0f0;"
  +:+ nl +:+ "                    display: flex;"
  +:+ nl +:+ "                    align-items: center;"
  +:+ nl +:+ "                    justify-content: center;"
  +:+ nl +:+ "                    color: #999;"
  +:+ nl +:+ "                    font-size: 0.875rem;"
  +:+ nl +:+ "                    text-transform: uppercase;"
  +:+ nl +:+ "                    letter-spacing: 0.1em;"
  +:+ nl +:+ "                ".

Definition placeholder : child :=
  CPlaceholder "image-placeholder" placeholderCss "Image Unavailable".

Definition isPlaceholder (c : child) : bool :=
  match c with
  | CPlaceholder _ _ t => bool_decide (t = "Image Unavailable")
  | _ => false
  end.

(** [parent.insertBefore(new, ref)] on the parent's child list; the DOM
    raises NotFoundError when [ref] is not a child of [parent]. *)
Fixpoint insertBefore (new ref : child) (kids : list child) : completion (list child) :=
  match kids with
  | [] => Throw NotFoundError
  | k :: kids' =>
      if decide (k = ref) then Normal (new :: k :: kids')
      else rest ← insertBefore new ref kids'; Normal (k :: rest)
  end.

(** The images and, for each parent element, its children in order. *)
Record dom := {
  images : nat -> Img;
  tree : gmap nat (list child)
}.

Definition hide (img : Img) : Img :=
  {| src := src img;
     data_src := data_src img;
     classList := classList img;
     display := "none";
     parentNode := parentNode img |}.

(** The error listener of image [this]. *)
Definition onError (this : nat) (d : dom) : completion dom :=
  let img := hide (images d this) in
  p ← deref (parentNode img);
  kids ← insertBefore placeholder (CImg this) (tree d !!! p);
  Normal {| images := alter hide this (images d);
            tree := <[p := kids]> (tree d) |}.

(** [n] error events delivered to image [this], one after the other. *)
Fixpoint onErrors (n : nat) (this : nat) (d : dom) : completion dom :=
  match n with
  | O => Normal d
  | S n' => d' ← onError this d; onErrors n' this d'
  end.

(** The placeholders among the children of [p]. *)
Definition placeholders (p : nat) (d : dom) : nat :=
  length (filter (λ c, isPlaceholder c = true) (tree d !!! p)).

End ErrorFallback.

(** ** Links to PDF files (the click listener of setupErrorHandling) *)

Record Anchor := {
  href : option string;
  textContent : string
}.

(** A pending [setTimeout] callback: when it is due, the link whose text
    it restores, and the text its closure captured. *)
Record timer := {
  due : Z;
  owner : nat;
  originalText : string
}.

Module PdfLink.

(** The selector [a[href*=".pdf"]]. *)
Definition selected (href : option string) : bool :=
  match href with
  | Some h => includes ".pdf" h
  | None => false
  end.

(** The links, by position in [document.querySelectorAll('a')], and the
    timer queue in scheduling order. *)
Record state := {
  anchors : nat -> Anchor;
  timers : list timer
}.

Definition setText (t : string) (a : Anchor) : Anchor :=
  {| href := href a; textContent := t |}.

(** The click listener of link [this] run at time [now]. *)
Definition onClick (this : nat) (now : Z) (st : state) : state :=
  let originalText := textContent (anchors st this) in
  {| anchors := alter (setText "Loading...") this (anchors st);
     timers := timers st ++
               [{| due := now + 1000; owner := this; originalText := originalText |}] |}.

(** A timer's callback: [this.textContent = originalText]. *)
Definition fire (links : nat -> Anchor) (tm : timer) : nat -> Anchor :=
  alter (setText (originalText tm)) (owner tm) links.

(** The clock reaches [T]: every timer due by then runs, in scheduling
    order (all delays are equal, so that is also the order of expiry). *)
Definition tick (T : Z) (st : state) : state :=
  {| anchors := foldl fire (anchors st) (filter (λ tm, due tm <= T) (timers st));
     timers := filter (λ tm, ¬ due tm <= T) (timers st) |}.

(** The part of a URL before its query and fragment. *)
Fixpoint path_of (url : string) : string :=
  match url with
  | EmptyString => EmptyString
  | String c rest =>
      if bool_decide (c = "?"%char) || bool_decide (c = "#"%char) then EmptyString
      else String c (path_of rest)
  end.

(** The behaviour description's criterion: the link's target path ends
    in ".pdf". *)
Definition path_ends_in_pdf (href : option string) : bool :=
  match href with
  | Some h => ends_with ".pdf" (path_of h)
  | None => false
  end.

End PdfLink.

(** ** Set-up routines and what they install *)

(** The closures the script creates, each with the variables it captured. *)
Inductive handler :=
| HIntersection
| HScroll (header : option elem)
| HAnchorClick (link : nat)
| HCardKeydown (link : option elem)
| HTouchStart (card : nat)
| HTouchMove (card : nat)
| HTouchEnd (card : nat) (link : option elem)
| HGridKeydown (n index : nat) (link : option elem)
| HDocumentKeydown
| HImgError (img : nat)
| HPdfClick (link : nat).

(** What a set-up routine does to the page. *)
Inductive action :=
| NewIntersectionObserver (h : handler)
| Observe (img : nat)
| SetAttribute (e : elem) (name value : string)
| AddEventListener (target : elem) (type : string) (h : handler) (passive : bool).

(** The document as the set-up routines query it. *)
Record Page := {
  hasIntersectionObserver : bool;     (* 'IntersectionObserver' in window *)
  header : option elem;               (* document.querySelector('.header') *)
  imgs : list Img;                    (* document.querySelectorAll('img') *)
  links : list Anchor;                (* document.querySelectorAll('a') *)
  projectCards : list (option elem);  (* per .project-card: card.querySelector('.project-link') *)
  gridItems : list (option elem)      (* per .grid-item: item.querySelector('.grid-link') *)
}.

Module Setup.

(** [list.forEach(function (x, index) { ... })]: an exception raised by
    the callback ends the iteration. *)
Fixpoint forEachFrom {A} (i : nat) (f : nat -> A -> completion (list action))
    (l : list A) : completion (list action) :=
  match l with
  | [] => Normal []
  | x :: l' =>
      a ← f i x;
      rest ← forEachFrom (S i) f l';
      Normal (a ++ rest)
  end.

Definition forEach {A} (f : nat -> A -> completion (list action)) (l : list A)
  : completion (list action) :=
  forEachFrom 0 f l.

Definition setupImageLazyLoading (p : Page) : completion (list action) :=
  if hasIntersectionObserver p then
    observes ← forEach (λ i img,
                  if LazyLoad.isLazy img then Normal [Observe i] else Normal [])
                (imgs p);
    Normal (NewIntersectionObserver HIntersection :: observes)
  else Normal [].

Definition setupResponsiveNavigation (p : Page) : completion (list action) :=
  let header := header p in
  if negb (truthy header) then Normal []
  else Normal [AddEventListener EWindow "scroll" (HScroll header) false].

Definition setupSmoothScrolling (p : Page) : completion (list action) :=
  forEach (λ i a,
      if SmoothScroll.selected (href a)
      then Normal [AddEventListener (EAnchor i) "click" (HAnchorClick i) false]
      else Normal [])
    (links p).

Definition cardActions (i : nat) (link : option elem) : list action :=
  [ SetAttribute (ECard i) "tabindex" "0";
    AddEventListener (ECard i) "keydown" (HCardKeydown link) false;
    AddEventListener (ECard i) "touchstart" (HTouchStart i) true;
    AddEventListener (ECard i) "touchmove" (HTouchMove i) true;
    AddEventListener (ECard i) "touchend" (HTouchEnd i link) false ].

Definition setupProjectCardInteractions (p : Page) : completion (list action) :=
  forEach (λ i link,
      if negb (truthy link) then Normal []
      else Normal (cardActions i link))
    (projectCards p).

Definition gridActions (n index : nat) (link : option elem) : list action :=
  [ SetAttribute (EGridItem index) "tabindex" "0";
    AddEventListener (EGridItem index) "keydown" (HGridKeydown n index link) false ].

Definition escapeAction : action :=
  AddEventListener EDocument "keydown" HDocumentKeydown false.

Definition setupKeyboardNavigation (p : Page) : completion (list action) :=
  let n := length (gridItems p) in
  items ←
    (if bool_decide (0 < n)%nat then
       forEach (λ index link,
           if negb (truthy link) then Normal []
           else Normal (gridActions n index link))
         (gridItems p)
     else Normal []);
  Normal (items ++ [escapeAction]).

Definition setupErrorHandling (p : Page) : completion (list action) :=
  images ← forEach (λ i _,
               Normal [AddEventListener (EImg i) "error" (HImgError i) false])
             (imgs p);
  resumeLinks ← forEach (λ i a,
                    if PdfLink.selected (href a)
                    then Normal [AddEventListener (EAnchor i) "click" (HPdfClick i) false]
                    else Normal [])
                  (links p);
  Normal (images ++ resumeLinks).

Definition initializePortfolio (p : Page) : completion (list action) :=
  a1 ← setupImageLazyLoading p;
  a2 ← setupResponsiveNavigation p;
  a3 ← setupSmoothScrolling p;
  a4 ← setupProjectCardInteractions p;
  a5 ← setupKeyboardNavigation p;
  a6 ← setupErrorHandling p;
  Normal (a1 ++ a2 ++ a3 ++ a4 ++ a5 ++ a6).

Definition listener (a : action) : option handler :=
  match a with
  | NewIntersectionObserver h => Some h
  | AddEventListener _ _ h _ => Some h
  | _ => None
  end.

End Setup.

(** ** Running an installed listener *)

Module Runtime.

(** What a listener reads from the browser when it runs. *)
Record env := {
  viewport : Header.viewport;
  now : Z;                                           (* Date.now() *)
  querySelector : string -> completion (option elem);
  backLink : option elem                 (* document.querySelector('.back-link') *)
}.

Inductive event :=
| EvIntersection (entries : list LazyLoad.entry)
| EvScroll
| EvClick
| EvKeydown (key : string)
| EvTouchStart (clientY : Z)
| EvTouchMove (clientY : Z)
| EvTouchEnd
| EvError.

(** The mutable state the listeners share: their closure variables and
    the parts of the document they write. *)
Record runtime := {
  rt_header : Header.state;
  rt_touch : nat -> Touch.state;
  rt_images : nat -> Img;
  rt_observed : gset nat;
  rt_tree : gmap nat (list child);
  rt_anchors : nat -> Anchor;
  rt_timers : list timer;
  rt_linkNode : nat -> nat     (* the node of each link: the key of its children in rt_tree *)
}.

Definition withHeader (h : Header.state) (rt : runtime) : runtime :=
  {| rt_header := h; rt_touch := rt_touch rt; rt_images := rt_images rt;
     rt_observed := rt_observed rt; rt_tree := rt_tree rt;
     rt_anchors := rt_anchors rt; rt_timers := rt_timers rt;
     rt_linkNode := rt_linkNode rt |}.

Definition withTouch (card : nat) (t : Touch.state) (rt : runtime) : runtime :=
  {| rt_header := rt_header rt; rt_touch := <[card := t]> (rt_touch rt);
     rt_images := rt_images rt; rt_observed := rt_observed rt;
     rt_tree := rt_tree rt; rt_anchors := rt_anchors rt;
     rt_timers := rt_timers rt; rt_linkNode := rt_linkNode rt |}.

Definition withLazy (s : LazyLoad.state) (rt : runtime) : runtime :=
  {| rt_header := rt_header rt; rt_touch := rt_touch rt;
     rt_images := LazyLoad.images s; rt_observed := LazyLoad.observed s;
     rt_tree := rt_tree rt; rt_anchors := rt_anchors rt;
     rt_timers := rt_timers rt; rt_linkNode := rt_linkNode rt |}.

Definition withDom (d : ErrorFallback.dom) (rt : runtime) : runtime :=
  {| rt_header := rt_header rt; rt_touch := rt_touch rt;
     rt_images := ErrorFallback.images d; rt_observed := rt_observed rt;
     rt_tree := ErrorFallback.tree d; rt_anchors := rt_anchors rt;
     rt_timers := rt_timers rt; rt_linkNode := rt_linkNode rt |}.

Definition withLinks (s : PdfLink.state) (rt : runtime) : runtime :=
  {| rt_header := rt_header rt; rt_touch := rt_touch rt;
     rt_images := rt_images rt; rt_observed := rt_observed rt;
     rt_tree := rt_tree rt; rt_anchors := PdfLink.anchors s;
     rt_timers := PdfLink.timers s; rt_linkNode := rt_linkNode rt |}.

Definition detach (img : Img) : Img :=
  {| src := src img;
     data_src := data_src img;
     classList := classList img;
     display := display img;
     parentNode := None |}.

(** What assigning to [textContent] does to the children of the element
    at [node]: all of them are removed (the text node that replaces them
    is not an element), so the node's child list becomes empty and the
    images that were its children have no parent any more. *)
Definition removeChildren (node : nat) (rt : runtime) : runtime :=
  {| rt_header := rt_header rt; rt_touch := rt_touch rt;
     rt_images := λ j, if bool_decide (parentNode (rt_images rt j) = Some node)
                       then detach (rt_images rt j) else rt_images rt j;
     rt_observed := rt_observed rt;
     rt_tree := <[node := []]> (rt_tree rt);
     rt_anchors := rt_anchors rt; rt_timers := rt_timers rt;
     rt_linkNode := rt_linkNode rt |}.

Definition lazyOf (rt : runtime) : LazyLoad.state :=
  {| LazyLoad.images := rt_images rt; LazyLoad.observed := rt_observed rt |}.

Definition domOf (rt : runtime) : ErrorFallback.dom :=
  {| ErrorFallback.images := rt_images rt; ErrorFallback.tree := rt_tree rt |}.

Definition linksOf (rt : runtime) : PdfLink.state :=
  {| PdfLink.anchors := rt_anchors rt; PdfLink.timers := rt_timers rt |}.

(** Listener [h] receives event [ev]; an event of a kind the listener
    is not registered for does not reach it. *)
Definition run (e : env) (h : handler) (ev : event) (rt : runtime)
  : completion (runtime * list effect) :=
  match h, ev with
  | HIntersection, EvIntersection entries =>
      Normal (withLazy (LazyLoad.callback entries (lazyOf rt)) rt, [])
  | HScroll header, EvScroll =>
      _ ← deref header;
      Normal (withHeader (Header.onScroll (viewport e) (rt_header rt)) rt, [])
  | HAnchorClick i, EvClick =>
      effs ← SmoothScroll.onClick (querySelector e) (href (rt_anchors rt i));
      Normal (rt, effs)
  | HCardKeydown link, EvKeydown key =>
      effs ← Card.onKeydown link key;
      Normal (rt, effs)
  | HTouchStart c, EvTouchStart y =>
      Normal (withTouch c (Touch.onTouchStart (now e) y (rt_touch rt c)) rt, [])
  | HTouchMove c, EvTouchMove y =>
      Normal (withTouch c (Touch.onTouchMove y (rt_touch rt c)) rt, [])
  | HTouchEnd c link, EvTouchEnd =>
      effs ← Touch.onTouchEnd link (now e) (rt_touch rt c);
      Normal (rt, effs)
  | HGridKeydown n index link, EvKeydown key =>
      effs ← Grid.onKeydown n index link key;
      Normal (rt, effs)
  | HDocumentKeydown, EvKeydown key =>
      effs ← Grid.onDocumentKeydown (backLink e) key;
      Normal (rt, effs)
  | HImgError i, EvError =>
      d ← ErrorFallback.onError i (domOf rt);
      Normal (withDom d rt, [])
  | HPdfClick i, EvClick =>
      Normal (removeChildren (rt_linkNode rt i)
                (withLinks (PdfLink.onClick i (now e) (linksOf rt)) rt), [])
  | _, _ => Normal (rt, [])
  end.

(** The references a closure captured are present: what the guards of
    the set-up routines ([if (!header) return], [if (!link) return]) and
    the iteration over the node list establish before a listener is
    created. *)
Definition guarded (h : handler) : Prop :=
  match h with
  | HScroll header => is_Some header
  | HCardKeydown link => is_Some link
  | HTouchEnd _ link => is_Some link
  | HGridKeydown n index link => is_Some link ∧ (index < n)%nat
  | _ => True
  end.

(** The tree is consistent: an image that has a parent is among that
    parent's children. *)
Definition wellFormed (rt : runtime) : Prop :=
  ∀ i p, parentNode (rt_images rt i) = Some p -> CImg i ∈ rt_tree rt !!! p.

End Runtime.

(** ** Debounce (the utility exposed as PortfolioUtils.debounce) *)

Module Debounce.

Section WithFunction.
(** [A] is the argument list of one call of the debounced function;
    [wait] is the delay given to [debounce]. *)
Context {A : Type}.
Variable wait : Z.

(** A timer set by [setTimeout(later, wait)]: its handle, when it is due,
    and the arguments the closure [later] captured. *)
Record job := {
  handle : nat;
  fireAt : Z;
  args : A
}.

(** The closure variable [timeout], the timers of this debounced function
    that are still pending (in the order they were set), the next handle
    [setTimeout] hands out, and the arguments of every call of [func] made
    so far, oldest first. *)
Record state := {
  timeout : option nat;
  queue : list job;
  nextHandle : nat;
  invoked : list A
}.

(** [let timeout;] leaves the variable undefined; handles are positive. *)
Definition init : state :=
  {| timeout := None; queue := []; nextHandle := 1; invoked := [] |}.

(** [clearTimeout(h)]: cancels the timer of that handle if it is still
    pending; does nothing for [undefined] and for a handle that has fired. *)
Definition clearTimeout (h : option nat) (q : list job) : list job :=
  match h with
  | None => q
  | Some i => filter (λ j, handle j ≠ i) q
  end.

(** [setTimeout] takes its delay as a signed 32-bit integer (the value
    wraps modulo 2^32) and treats a negative delay as 0. *)
Definition toInt32 (x : Z) : Z := (x + 2 ^ 31) mod 2 ^ 32 - 2 ^ 31.

Definition delay : Z := Z.max 0 (toInt32 wait).

(** One call [executedFunction(...args)] at time [now]. *)
Definition executedFunction (now : Z) (a : A) (st : state) : state :=
  let q := clearTimeout (timeout st) (queue st) in
  let h := nextHandle st in
  {| timeout := Some h;
     queue := q ++ [{| handle := h; fireAt := now + delay; args := a |}];
     nextHandle := S h;
     invoked := invoked st |}.

(** Timer [j] fires and runs [later]: [clearTimeout(timeout); func(...args)]. *)
Definition later (j : job) (st : state) : state :=
  let rest := filter (λ k, handle k ≠ handle j) (queue st) in
  {| timeout := timeout st;
     queue := clearTimeout (timeout st) rest;
     nextHandle := nextHandle st;
     invoked := invoked st ++ [args j] |}.

(** The pending timer that is due first; of two due at the same time, the
    one set first. *)
Fixpoint earliest (q : list job) : option job :=
  match q with
  | [] => None
  | j :: q' =>
      match earliest q' with
      | Some k => if bool_decide (fireAt k < fireAt j) then Some k else Some j
      | None => Some j
      end
  end.

(** Timers fire one at a time, each seeing what the previous one did. *)
Fixpoint runTimers (fuel : nat) (T : Z) (st : state) : state :=
  match fuel with
  | O => st
  | S fuel' =>
      match earliest (queue st) with
      | Some j => if bool_decide (fireAt j <= T) then runTimers fuel' T (later j st) else st
      | None => st
      end
  end.

(** The clock reaches [T]: every timer due by then fires. Each firing
    removes at least the timer that fired, so the length of the queue is
    fuel enough. *)
Definition tick (T : Z) (st : state) : state :=
  runTimers (length (queue st)) T st.

Inductive event :=
| Call (now : Z) (a : A)
| Tick (T : Z).

Definition step (st : state) (ev : event) : state :=
  match ev with
  | Call now a => executedFunction now a st
  | Tick T => tick T st
  end.

Definition run (evs : list event) (st : state) : state := foldl step st evs.

(** The arguments of the calls of a trace, in order. *)
Definition callArgs (evs : list event) : list A :=
  omap (λ ev, match ev with Call _ a => Some a | Tick _ => None end) evs.

(** A burst of calls: each call is made once the clock has reached its
    time, the timers due by then having fired. *)
Definition burst (calls : list (Z * A)) (st : state) : state :=
  foldl (λ s c, executedFunction c.1 c.2 (tick c.1 s)) st calls.

(** Successive calls less than the delay apart (and not going back in time). *)
Fixpoint rapid (t : Z) (calls : list (Z * A)) : Prop :=
  match calls with
  | [] => True
  | c :: calls' => t <= c.1 < t + delay ∧ rapid c.1 calls'
  end.

(** Successive calls more than the delay apart. *)
Fixpoint spaced (t : Z) (calls : list (Z * A)) : Prop :=
  match calls with
  | [] => True
  | c :: calls' => t + delay < c.1 ∧ spaced c.1 calls'
  end.

(** At most one timer is pending, and it is the one [timeout] names. *)
Definition settled (st : state) : Prop :=
  (length (queue st) <= 1)%nat ∧ ∀ j, j ∈ queue st -> timeout st = Some (handle j).

(** A timer for the call [(t, a)] is the only one pending, [func] having
    been called with [inv] so far. *)
Definition armed (t : Z) (a : A) (inv : list A) (st : state) : Prop :=
  ∃ h n, st = {| timeout := Some h;
                 queue := [{| handle := h; fireAt := t + delay; args := a |}];
                 nextHandle := n;
                 invoked := inv |}.

End WithFunction.

End Debounce.

(** * Properties *)

(** ** Completions *)

Lemma bind_Throw {A B} (c : completion A) (k : A -> completion B) (e : jsError) :
  c ≫= k = Throw e -> c = Throw e ∨ ∃ a, c = Normal a ∧ k a = Throw e.
Proof. destruct c as [a|e']; simpl; [eauto | intros [= ->]; auto]. Qed.

(** ** Iteration over a node list *)

Lemma forEachFrom_spec {A} (f : nat -> A -> completion (list action))
    (g : nat -> A -> list action) :
  (∀ i x, f i x = Normal (g i x)) ->
  ∀ l k, ∃ acts,
    Setup.forEachFrom k f l = Normal acts ∧
    ∀ a, a ∈ acts ↔ ∃ j x, l !! j = Some x ∧ a ∈ g (k + j)%nat x.
Proof.
  intros Hf l. induction l as [|x l IH]; intros k.
  - exists []. split; [done|]. intros a. split.
    + intros H. by apply elem_of_nil in H.
    + intros (j & y & H & _). by rewrite lookup_nil in H.
  - destruct (IH (S k)) as (rest & Hrest & Hmem).
    exists (g k x ++ rest). split.
    + cbn. rewrite Hf. cbn. rewrite Hrest. reflexivity.
    + intros a. rewrite elem_of_app, Hmem. split.
      * intros [H|(j & y & Hj & H)].
        -- exists 0%nat, x. by rewrite Nat.add_0_r.
        -- exists (S j), y. by rewrite Nat.add_succ_r.
      * intros ([|j] & y & Hj & H).
        -- left. cbn in Hj. injection Hj as <-. by rewrite Nat.add_0_r in H.
        -- right. exists j, y. by rewrite Nat.add_succ_r in H.
Qed.

Lemma forEach_spec {A} (f : nat -> A -> completion (list action))
    (g : nat -> A -> list action) (l : list A) :
  (∀ i x, f i x = Normal (g i x)) ->
  ∃ acts,
    Setup.forEach f l = Normal acts ∧
    ∀ a, a ∈ acts ↔ ∃ j x, l !! j = Some x ∧ a ∈ g j x.
Proof. intros Hf. exact (forEachFrom_spec f g Hf l 0%nat). Qed.

Lemma setupProjectCardInteractions_spec p :
  ∃ acts, Setup.setupProjectCardInteractions p = Normal acts ∧
    ∀ a, a ∈ acts ↔
      ∃ i l, projectCards p !! i = Some (Some l) ∧ a ∈ Setup.cardActions i (Some l).
Proof.
  destruct (forEach_spec
    (λ i link, if negb (truthy link) then Normal [] else Normal (Setup.cardActions i link))
    (λ i link, if negb (truthy link) then [] else Setup.cardActions i link)
    (projectCards p)) as (acts & Hacts & Hmem).
  { intros i x. by destruct (negb (truthy x)). }
  exists acts. split; [exact Hacts|]. intros a. rewrite Hmem. split.
  - intros (j & [l|] & Hj & Ha); cbn in Ha; [by exists j, l | by apply elem_of_nil in Ha].
  - intros (i & l & Hi & Ha). by exists i, (Some l).
Qed.

(** ** Breakpoints *)

(** C9: the breakpoint classifier returns "mobile" for widths up to 480,
    "tablet" for widths above 480 and up to 768, and "desktop" above 768. *)
Theorem getBreakpoint_classifies (w : Z) :
  (w <= 480 -> Breakpoint.getBreakpoint w = "mobile") ∧
  (480 < w <= 768 -> Breakpoint.getBreakpoint w = "tablet") ∧
  (768 < w -> Breakpoint.getBreakpoint w = "desktop").
Proof.
  unfold Breakpoint.getBreakpoint; cbv zeta.
  repeat split; intros; repeat case_bool_decide; try reflexivity; lia.
Qed.

Lemma getBreakpoint_samples :
  Breakpoint.getBreakpoint 480 = "mobile" ∧
  Breakpoint.getBreakpoint 481 = "tablet" ∧
  Breakpoint.getBreakpoint 768 = "tablet" ∧
  Breakpoint.getBreakpoint 769 = "desktop".
Proof.
  pose proof (getBreakpoint_classifies 480) as (Hm & _ & _).
  pose proof (getBreakpoint_classifies 481) as (_ & Ht & _).
  pose proof (getBreakpoint_classifies 768) as (_ & Ht' & _).
  pose proof (getBreakpoint_classifies 769) as (_ & _ & Hd).
  split; [|split; [|split]]; [apply Hm | apply Ht | apply Ht' | apply Hd]; lia.
Defined.

(** ** Responsive header *)

Lemma onScroll_lastScrollTop v st :
  Header.lastScrollTop (Header.onScroll v st) = Header.scrollTop_of v.
Proof. reflexivity. Qed.

Lemma onScroll_wide v st :
  Header.innerWidth v > 768 ->
  Header.transform (Header.onScroll v st) = Header.shown.
Proof.
  intros Hw. unfold Header.onScroll; cbn.
  case_bool_decide; [lia | reflexivity].
Qed.

Lemma onScroll_narrow v st :
  Header.innerWidth v <= 768 ->
  Header.transform (Header.onScroll v st) =
    if decide (Header.scrollTop_of v > Header.lastScrollTop st ∧ Header.scrollTop_of v > 100)
    then Header.hidden else Header.shown.
Proof.
  intros Hw. unfold Header.onScroll; cbn.
  rewrite (bool_decide_eq_true_2 _ Hw).
  destruct (decide _) as [[H1 H2]|Hn].
  - by rewrite !bool_decide_eq_true_2.
  - destruct (bool_decide (Header.scrollTop_of v > Header.lastScrollTop st)) eqn:E1;
      destruct (bool_decide (Header.scrollTop_of v > 100)) eqn:E2; try reflexivity.
    apply bool_decide_eq_true_1 in E1, E2. tauto.
Qed.

(** C2: on every scroll event, at width at most 768 the header is hidden
    exactly when the current offset is strictly above the last recorded one
    and strictly above 100, and shown otherwise; above 768 it is shown; the
    last recorded offset becomes the current one in every case; and at width
    at most 768 the offsets 0, 50, 150, 120 give shown, shown, hidden,
    shown, that is the phases shown, hidden, shown. *)
Theorem header_scroll_behaviour (v : Header.viewport) (st : Header.state) :
  let st' := Header.onScroll v st in
  let scrollTop := Header.scrollTop_of v in
  let scrolledDown := scrollTop > Header.lastScrollTop st ∧ scrollTop > 100 in
  (Header.innerWidth v <= 768 ->
     (Header.transform st' = Header.hidden ↔ scrolledDown) ∧
     (Header.transform st' = Header.shown ↔ ¬ scrolledDown)) ∧
  (Header.innerWidth v > 768 -> Header.transform st' = Header.shown) ∧
  Header.lastScrollTop st' = scrollTop ∧
  (∀ vs : list Header.viewport,
     Forall (λ u, Header.innerWidth u <= 768) vs ->
     Header.scrollTop_of <$> vs = [0; 50; 150; 120] ->
     Header.trace vs st =
       [Header.shown; Header.shown; Header.hidden; Header.shown] ∧
     Header.phases (Header.trace vs st) =
       [Header.shown; Header.hidden; Header.shown]).
Proof.
  cbv zeta. split; [|split; [|split]].
  - intros Hw. rewrite (onScroll_narrow _ _ Hw).
    destruct (decide _) as [H|H]; split; split; intros; try tauto;
      try reflexivity; try discriminate.
  - apply onScroll_wide.
  - apply onScroll_lastScrollTop.
  - intros vs Hw Hs.
    destruct vs as [|v1 [|v2 [|v3 [|v4 [|]]]]]; try discriminate Hs.
    injection Hs as H1 H2 H3 H4.
    apply Forall_cons_1 in Hw as [W1 Hw]. apply Forall_cons_1 in Hw as [W2 Hw].
    apply Forall_cons_1 in Hw as [W3 Hw]. apply Forall_cons_1 in Hw as [W4 _].
    assert (Header.trace [v1; v2; v3; v4] st =
            [Header.shown; Header.shown; Header.hidden; Header.shown]) as ->.
    { cbn [Header.trace]. cbv zeta.
      rewrite !onScroll_narrow by assumption.
      rewrite !onScroll_lastScrollTop, H1, H2, H3, H4.
      repeat (destruct (decide _) as [[? ?]|Hn];
              try lia; try (exfalso; apply Hn; lia)).
      reflexivity. }
    split; reflexivity.
Qed.

Lemma header_scroll_witness :
  let at_offset := λ y, {| Header.pageYOffset := y; Header.docScrollTop := y;
                           Header.innerWidth := 375 |} in
  let st := {| Header.transform := Header.shown; Header.lastScrollTop := 50 |} in
  Header.transform (Header.onScroll (at_offset 150) st) = Header.hidden ∧
  Header.lastScrollTop (Header.onScroll (at_offset 150) st) = 150 ∧
  Header.trace [at_offset 0; at_offset 50; at_offset 150; at_offset 120] Header.init =
    [Header.shown; Header.shown; Header.hidden; Header.shown].
Proof.
  cbv zeta.
  pose proof (header_scroll_behaviour
    {| Header.pageYOffset := 150; Header.docScrollTop := 150; Header.innerWidth := 375 |}
    {| Header.transform := Header.shown; Header.lastScrollTop := 50 |})
    as (Hn & _ & Hl & _).
  pose proof (header_scroll_behaviour
    {| Header.pageYOffset := 0; Header.docScrollTop := 0; Header.innerWidth := 375 |}
    Header.init) as (_ & _ & _ & Hseq).
  split; [|split; [exact Hl|]].
  - destruct Hn as [[_ Hh] _]; [cbn; lia|].
    apply Hh. split; vm_compute; reflexivity.
  - refine (proj1 (Hseq _ _ _)); [|reflexivity].
    repeat constructor; cbn; lia.
Defined.

(** ** Touch on a project card *)

Lemma onTouchMove_flag y st :
  Touch.isTouchScrolling (Touch.onTouchMove y st) = true ↔
  Touch.isTouchScrolling st = true ∨ Z.abs (y - Touch.touchStartY st) > 10.
Proof.
  unfold Touch.onTouchMove; cbv zeta. case_bool_decide; cbn; [tauto|].
  split; [auto | intros [?|?]; [done | lia]].
Qed.

Lemma onTouchMove_start y st :
  Touch.touchStartY (Touch.onTouchMove y st) = Touch.touchStartY st ∧
  Touch.touchStartTime (Touch.onTouchMove y st) = Touch.touchStartTime st.
Proof. unfold Touch.onTouchMove; cbv zeta. by case_bool_decide. Qed.

Lemma isTap_spec now st :
  Touch.isTap now st = true ↔
  Touch.isTouchScrolling st = false ∧ now - Touch.touchStartTime st < 500.
Proof.
  unfold Touch.isTap; cbv zeta.
  rewrite andb_true_iff, negb_true_iff, bool_decide_eq_true. tauto.
Qed.

Lemma onTouchEnd_linked link now st :
  Touch.onTouchEnd (Some link) now st =
    Normal (if Touch.isTap now st then [PreventDefault; Click link] else []).
Proof. unfold Touch.onTouchEnd. by destruct (Touch.isTap now st). Qed.

(** Between two touchstarts the start time and position stay put, and the
    flag is raised by the first far-enough touchmove and never lowered. *)
Lemma run_without_touchstart link evs st :
  Forall (λ ev, Touch.isTouchStart ev = false) evs ->
  ∃ st' effs,
    Touch.run (Some link) evs st = Normal (st', effs) ∧
    length effs = length evs ∧
    Touch.touchStartTime st' = Touch.touchStartTime st ∧
    Touch.touchStartY st' = Touch.touchStartY st ∧
    (Touch.isTouchScrolling st' = true ↔
     Touch.isTouchScrolling st = true ∨ Touch.movedBeyond (Touch.touchStartY st) evs).
Proof.
  intros Hns. revert st.
  induction Hns as [|ev evs Hev _ IH]; intros st.
  - exists st, []. repeat split; auto.
    intros [?|(y & Hin & _)]; [done | by apply elem_of_nil in Hin].
  - destruct ev as [t y|y|t]; [discriminate Hev| |].
    + destruct (IH (Touch.onTouchMove y st)) as (st' & effs & Hrun & Hlen & Ht & Hy & Hf).
      destruct (onTouchMove_start y st) as [Hy0 Ht0].
      exists st', ([] :: effs). cbn. rewrite Hrun. cbn.
      repeat split; [by rewrite Hlen | congruence | congruence | |].
      * intros H. apply Hf in H as [H|(y' & Hin & Hgt)].
        -- apply onTouchMove_flag in H as [?|?]; [by left|].
           right. exists y. split; [left | done].
        -- right. exists y'. rewrite Hy0 in Hgt. split; [by right | done].
      * intros H. apply Hf. destruct H as [H|(y' & Hin & Hgt)].
        -- left. apply onTouchMove_flag. by left.
        -- apply elem_of_cons in Hin as [[= <-]|Hin].
           ++ left. apply onTouchMove_flag. by right.
           ++ right. exists y'. by rewrite Hy0.
    + destruct (IH st) as (st' & effs & Hrun & Hlen & Ht & Hy & Hf).
      exists st', ((if Touch.isTap t st then [PreventDefault; Click link] else []) :: effs).
      cbn. rewrite onTouchEnd_linked. cbn. rewrite Hrun. cbn.
      repeat split; [by rewrite Hlen | done | done | |].
      * intros H. apply Hf in H as [H|(y' & Hin & Hgt)]; [by left|].
        right. exists y'. split; [by right | done].
      * intros H. apply Hf. destruct H as [H|(y' & Hin & Hgt)]; [by left|].
        apply elem_of_cons in Hin as [[=]|Hin]. right. by exists y'.
Qed.

Lemma run_app link evs1 evs2 st st1 effs1 :
  Touch.run link evs1 st = Normal (st1, effs1) ->
  Touch.run link (evs1 ++ evs2) st =
    (r ← Touch.run link evs2 st1; Normal (r.1, effs1 ++ r.2)).
Proof.
  revert st st1 effs1. induction evs1 as [|ev evs1 IH]; intros st st1 effs1 Hrun.
  - cbn in Hrun. injection Hrun as <- <-. cbn.
    destruct (Touch.run link evs2 st) as [[? ?]|]; reflexivity.
  - cbn in Hrun. cbn.
    destruct (Touch.step link ev st) as [[s e]|]; [|discriminate]. cbn in *.
    destruct (Touch.run link evs1 s) as [[s' e']|] eqn:E; [|discriminate]. cbn in *.
    injection Hrun as <- <-.
    rewrite (IH _ _ _ E).
    destruct (Touch.run link evs2 s') as [[? ?]|]; reflexivity.
Qed.

(** C1: the touch listeners are installed on exactly the project cards
    that contain an activation link; on such a card touchend activates the link
    (preventDefault, then click) exactly when the scrolling flag is false and
    less than 500 ms passed since touchstart, and does nothing otherwise;
    touchstart resets start time, start position and flag; and through any
    events up to the next touchstart the flag is true exactly when some
    touchmove was more than 10 units away from the start position, so that a
    gesture ends in an activation exactly when no such move occurred and it
    took less than 500 ms. *)
Theorem touch_tap_detection (link : elem) :
  (∀ p, ∃ acts, Setup.setupProjectCardInteractions p = Normal acts ∧
     ∀ i h, AddEventListener (ECard i) "touchend" h false ∈ acts ↔
       ∃ l, projectCards p !! i = Some (Some l) ∧ h = HTouchEnd i (Some l)) ∧
  (∀ now st,
     ∃ effs, Touch.step (Some link) (Touch.TouchEnd now) st = Normal (st, effs) ∧
       (effs = [PreventDefault; Click link] ↔
        Touch.isTouchScrolling st = false ∧ now - Touch.touchStartTime st < 500) ∧
       (effs = [] ↔
        ¬ (Touch.isTouchScrolling st = false ∧ now - Touch.touchStartTime st < 500))) ∧
  (∀ now y st,
     Touch.step (Some link) (Touch.TouchStart now y) st =
       Normal ({| Touch.touchStartTime := now; Touch.touchStartY := y;
                  Touch.isTouchScrolling := false |}, [])) ∧
  (∀ y st,
     ∃ st', Touch.step (Some link) (Touch.TouchMove y) st = Normal (st', []) ∧
       Touch.touchStartTime st' = Touch.touchStartTime st ∧
       Touch.touchStartY st' = Touch.touchStartY st ∧
       (Touch.isTouchScrolling st' = true ↔
        Touch.isTouchScrolling st = true ∨ Z.abs (y - Touch.touchStartY st) > 10)) ∧
  (∀ t0 y0 evs st,
     Forall (λ ev, Touch.isTouchStart ev = false) evs ->
     ∃ st' effs,
       Touch.run (Some link) (Touch.TouchStart t0 y0 :: evs) st = Normal (st', effs) ∧
       Touch.touchStartTime st' = t0 ∧
       Touch.touchStartY st' = y0 ∧
       (Touch.isTouchScrolling st' = true ↔ Touch.movedBeyond y0 evs) ∧
       ∀ t1, ∃ last,
         Touch.run (Some link) (Touch.TouchStart t0 y0 :: evs ++ [Touch.TouchEnd t1]) st
           = Normal (st', effs ++ [last]) ∧
         (last = [PreventDefault; Click link] ↔
          ¬ Touch.movedBeyond y0 evs ∧ t1 - t0 < 500) ∧
         (last = [] ↔ ¬ (¬ Touch.movedBeyond y0 evs ∧ t1 - t0 < 500))).
Proof.
  assert (Hend : ∀ now st,
     ∃ effs, Touch.step (Some link) (Touch.TouchEnd now) st = Normal (st, effs) ∧
       (effs = [PreventDefault; Click link] ↔
        Touch.isTouchScrolling st = false ∧ now - Touch.touchStartTime st < 500) ∧
       (effs = [] ↔
        ¬ (Touch.isTouchScrolling st = false ∧ now - Touch.touchStartTime st < 500))).
  { intros now st. cbn. rewrite onTouchEnd_linked. cbn.
    eexists; split; [reflexivity|].
    pose proof (isTap_spec now st) as Htap.
    destruct (Touch.isTap now st).
    - assert (Hc : Touch.isTouchScrolling st = false ∧ now - Touch.touchStartTime st < 500)
        by (by apply Htap).
      clear Htap. split; split; intros; try done.
    - assert (Hc : ¬ (Touch.isTouchScrolling st = false ∧ now - Touch.touchStartTime st < 500))
        by (intros Hc; apply Htap in Hc; discriminate).
      clear Htap. split; split; intros; try done. }
  split; [|split; [exact Hend|]; split; [reflexivity|]; split].
  - intros p. destruct (setupProjectCardInteractions_spec p) as (acts & Hacts & Hmem).
    exists acts. split; [exact Hacts|]. intros i h. rewrite Hmem. split.
    + intros (j & l & Hj & Ha). unfold Setup.cardActions in Ha.
      repeat (apply elem_of_cons in Ha as [[=]|Ha]); [|by apply elem_of_nil in Ha].
      subst. by exists l.
    + intros (l & Hi & ->). exists i, l. split; [done|].
      unfold Setup.cardActions. do 4 apply list_elem_of_further. apply list_elem_of_here.
  - intros y st. exists (Touch.onTouchMove y st). split; [reflexivity|].
    destruct (onTouchMove_start y st) as [Hy Ht].
    split; [done|]. split; [done|]. apply onTouchMove_flag.
  - intros t0 y0 evs st Hns.
    destruct (run_without_touchstart link evs (Touch.onTouchStart t0 y0 st) Hns)
      as (st' & effs & Hrun & Hlen & Ht & Hy & Hf).
    cbn in Ht, Hy, Hf.
    assert (Hflag : Touch.isTouchScrolling st' = true ↔ Touch.movedBeyond y0 evs).
    { rewrite Hf. split; [intros [?|?]; [discriminate | done] | auto]. }
    exists st', ([] :: effs). split; [|split; [done|split; [done|split; [done|]]]].
    { cbn. rewrite Hrun. reflexivity. }
    intros t1.
    destruct (Hend t1 st') as (last & Hstep & Hact & Hnone).
    exists last. split.
    + cbn. rewrite (run_app _ _ [Touch.TouchEnd t1] _ _ _ Hrun).
      cbn [Touch.run]. rewrite Hstep. reflexivity.
    + rewrite Ht in Hact, Hnone. rewrite Hact, Hnone, <- Hflag.
      destruct (Touch.isTouchScrolling st'); intuition congruence.
Qed.

Lemma touch_tap_witness :
  (∃ effs, Touch.step (Some (ELink 0)) (Touch.TouchEnd 200)
             {| Touch.touchStartTime := 0; Touch.touchStartY := 100;
                Touch.isTouchScrolling := false |}
           = Normal ({| Touch.touchStartTime := 0; Touch.touchStartY := 100;
                        Touch.isTouchScrolling := false |}, effs) ∧
           effs = [PreventDefault; Click (ELink 0)]) ∧
  (∃ st' effs, Touch.run (Some (ELink 0))
                 (Touch.TouchStart 0 100 :: [Touch.TouchMove 130] ++ [Touch.TouchEnd 200])
                 Touch.init
               = Normal (st', effs ++ [[]])).
Proof.
  destruct (touch_tap_detection (ELink 0)) as (_ & Hend & _ & _ & Hrun). split.
  - destruct (Hend 200 {| Touch.touchStartTime := 0; Touch.touchStartY := 100;
                          Touch.isTouchScrolling := false |})
      as (effs & Hstep & Hact & _).
    exists effs. split; [exact Hstep|]. apply Hact. cbn. split; [reflexivity | lia].
  - destruct (Hrun 0 100 [Touch.TouchMove 130] Touch.init) as (st' & effs & _ & _ & _ & _ & Hlast).
    { repeat constructor. }
    destruct (Hlast 200) as (last & Hr & _ & Hnone).
    exists st', effs. rewrite Hr. repeat f_equal. apply Hnone.
    intros [Hnm _]. apply Hnm. exists 130. split; [left | lia].
Defined.

(** ** Strings *)

Lemma starts_with_spec pre s :
  starts_with pre s = true ↔ ∃ rest, s = pre +:+ rest.
Proof.
  revert s. induction pre as [|a pre IH]; intros s; cbn.
  - split; [intros _; by exists s | done].
  - destruct s as [|b s].
    + split; [done | intros [rest [=]]].
    + rewrite andb_true_iff, bool_decide_eq_true, IH. split.
      * intros [-> [rest ->]]. by exists rest.
      * intros [rest [= -> ->]]. split; [done | by exists rest].
Qed.

Lemma includes_spec needle s :
  includes needle s = true ↔ ∃ before after, s = before +:+ needle +:+ after.
Proof.
  induction s as [|c s IH]; cbn [includes]; rewrite orb_true_iff, starts_with_spec.
  - split.
    + intros [[rest ->]|[=]]. by exists EmptyString, rest.
    + intros (before & after & H). left.
      destruct before; cbn in H; [by exists after | discriminate].
  - rewrite IH. split.
    + intros [[rest ->]|(before & after & ->)].
      * by exists EmptyString, rest.
      * by exists (String c before), after.
    + intros (before & after & H). destruct before as [|b before]; cbn in H.
      * left. by exists after.
      * right. injection H as -> ->. by exists before, after.
Qed.

Lemma ends_with_spec suf s :
  ends_with suf s = true ↔ ∃ before, s = before +:+ suf.
Proof.
  induction s as [|c s IH]; cbn [ends_with]; rewrite orb_true_iff, bool_decide_eq_true.
  - split.
    + intros [<-|[=]]. by exists EmptyString.
    + intros [before H]. left. destruct before; cbn in H; [done | discriminate].
  - rewrite IH. split.
    + intros [<-|[before ->]]; [by exists EmptyString | by exists (String c before)].
    + intros [before H]. destruct before as [|b before]; cbn in H.
      * by left.
      * right. injection H as -> ->. by exists before.
Qed.

Lemma string_app_assoc (a b c : string) : (a +:+ b) +:+ c = a +:+ (b +:+ c).
Proof. induction a as [|x a IH]; [done | exact (f_equal (String x) IH)]. Qed.

Lemma path_of_prefix url : ∃ rest, url = PdfLink.path_of url +:+ rest.
Proof.
  induction url as [|c url [rest IH]]; cbn.
  - by exists EmptyString.
  - destruct (bool_decide (c = "?"%char) || bool_decide (c = "#"%char)); cbn.
    + by exists (String c url).
    + exists rest. exact (f_equal (String c) IH).
Qed.

(** ** Smooth scrolling *)

Lemma setupSmoothScrolling_spec p :
  ∃ acts, Setup.setupSmoothScrolling p = Normal acts ∧
    ∀ a, a ∈ acts ↔
      ∃ i lk, links p !! i = Some lk ∧ SmoothScroll.selected (href lk) = true ∧
              a = AddEventListener (EAnchor i) "click" (HAnchorClick i) false.
Proof.
  destruct (forEach_spec
    (λ i a, if SmoothScroll.selected (href a)
            then Normal [AddEventListener (EAnchor i) "click" (HAnchorClick i) false]
            else Normal [])
    (λ i a, if SmoothScroll.selected (href a)
            then [AddEventListener (EAnchor i) "click" (HAnchorClick i) false]
            else [])
    (links p)) as (acts & Hacts & Hmem).
  { intros i x. by destruct (SmoothScroll.selected (href x)). }
  exists acts. split; [exact Hacts|]. intros a. rewrite Hmem.
  split; intros (i & lk & Hlk & H); exists i, lk; (split; [done|]).
  - destruct (SmoothScroll.selected (href lk)).
    + apply list_elem_of_singleton in H. done.
    + by apply elem_of_nil in H.
  - destruct H as [-> ->]. apply list_elem_of_singleton. done.
Qed.

(** What the click listener does, in terms of what [document.querySelector]
    answers. *)
Lemma onClick_by_selector (querySelector : string -> completion (option elem)) :
  (∀ p, ∃ acts, Setup.setupSmoothScrolling p = Normal acts ∧
     ∀ i h, AddEventListener (EAnchor i) "click" h false ∈ acts ↔
       h = HAnchorClick i ∧
       ∃ lk rest, links p !! i = Some lk ∧ href lk = Some ("#" +:+ rest)) ∧
  SmoothScroll.onClick querySelector (Some "#") = Normal [] ∧
  (∀ h target,
     h ≠ "#" -> querySelector h = Normal (Some target) ->
     SmoothScroll.onClick querySelector (Some h) =
       Normal [PreventDefault; ScrollIntoView target "smooth" "start"]) ∧
  (∀ h,
     h ≠ "#" -> querySelector h = Normal None ->
     SmoothScroll.onClick querySelector (Some h) = Normal []) ∧
  (∀ href effs,
     SmoothScroll.onClick querySelector href = Normal effs -> effs ≠ [] ->
     ∃ target,
       href ≠ Some "#" ∧
       querySelector (SmoothScroll.selector_of href) = Normal (Some target) ∧
       effs = [PreventDefault; ScrollIntoView target "smooth" "start"]) ∧
  (∀ href e,
     SmoothScroll.onClick querySelector href = Throw e ↔
     href ≠ Some "#" ∧ querySelector (SmoothScroll.selector_of href) = Throw e).
Proof.
  split; [|split; [|split; [|split; [|split]]]].
  - intros p. destruct (setupSmoothScrolling_spec p) as (acts & Hacts & Hmem).
    exists acts. split; [exact Hacts|]. intros i h. rewrite Hmem. split.
    + intros (j & lk & Hlk & Hsel & [= <- <-]). split; [done|].
      unfold SmoothScroll.selected in Hsel.
      destruct (href lk) as [u|] eqn:Hu; [|discriminate].
      apply starts_with_spec in Hsel as [rest ->]. by exists lk, rest.
    + intros [-> (lk & rest & Hlk & Hh)]. exists i, lk. split; [done|].
      split; [|done]. unfold SmoothScroll.selected. rewrite Hh.
      apply starts_with_spec. by exists rest.
  - reflexivity.
  - intros h target Hne Hq. unfold SmoothScroll.onClick.
    rewrite bool_decide_eq_false_2 by congruence. cbn. by rewrite Hq.
  - intros h Hne Hq. unfold SmoothScroll.onClick.
    rewrite bool_decide_eq_false_2 by congruence. cbn. by rewrite Hq.
  - intros href effs Hrun Hnil. unfold SmoothScroll.onClick in Hrun.
    case_bool_decide as Hh; [by injection Hrun as <-|].
    destruct (querySelector (SmoothScroll.selector_of href)) as [[t|]|] eqn:Hq;
      cbn in Hrun; [| by injection Hrun as <- | discriminate].
    injection Hrun as <-. by exists t.
  - intros href e. unfold SmoothScroll.onClick.
    case_bool_decide as Hh; [split; [discriminate | by intros [? _]]|].
    destruct (querySelector (SmoothScroll.selector_of href)) as [[t|]|] eqn:Hq; cbn;
      (split; [intros [=] | intros [_ [=]]]); subst; done.
Qed.

Lemma digit_not_nameStart (c : ascii) :
  Dom.isDigit c = true -> Dom.isNameStart c = false.
Proof.
  unfold Dom.isDigit, Dom.isNameStart. cbv zeta. intros H.
  apply andb_true_iff in H as [H1 H2]. apply Nat.leb_le in H1, H2.
  rewrite !orb_false_iff, !andb_false_iff, !Nat.leb_gt, Nat.eqb_neq. lia.
Qed.

Lemma querySelector_plain (doc : list (string * elem))
    (other : string -> completion (option elem)) (name : string) :
  Dom.plainIdent name = true ->
  Dom.querySelector doc other (String "#" name) = Normal (Dom.getElementById doc name).
Proof. intros H. cbn. by rewrite H. Qed.

Lemma querySelector_digit (doc : list (string * elem))
    (other : string -> completion (option elem)) (name : string) :
  Dom.startsWithDigit name = true ->
  Dom.querySelector doc other (String "#" name) = Throw SyntaxError.
Proof.
  intros H. cbn. rewrite H. destruct name as [|c rest]; [discriminate|].
  cbn in H. cbn. by rewrite (digit_not_nameStart c H).
Qed.

(** C5, as the script has it: the click listener is installed on exactly
    the links whose href begins with "#"; a click with href "#" does nothing;
    the target is looked up with [document.querySelector(href)]: when that
    returns an element the listener prevents the default and issues one
    scrollIntoView on it with behavior smooth and block start; when it
    returns none the listener neither prevents the default nor scrolls; when
    it raises, the listener raises with it, and nothing else prevents the
    default or scrolls. For a fragment that is a plain identifier the
    element returned is the element with that id; a fragment that starts
    with a digit makes the lookup raise SyntaxError, whether or not an
    element with that id exists. *)
Theorem smooth_scroll_click (querySelector : string -> completion (option elem)) :
  (∀ p, ∃ acts, Setup.setupSmoothScrolling p = Normal acts ∧
     ∀ i h, AddEventListener (EAnchor i) "click" h false ∈ acts ↔
       h = HAnchorClick i ∧
       ∃ lk rest, links p !! i = Some lk ∧ href lk = Some ("#" +:+ rest)) ∧
  SmoothScroll.onClick querySelector (Some "#") = Normal [] ∧
  (∀ h target,
     h ≠ "#" -> querySelector h = Normal (Some target) ->
     SmoothScroll.onClick querySelector (Some h) =
       Normal [PreventDefault; ScrollIntoView target "smooth" "start"]) ∧
  (∀ h,
     h ≠ "#" -> querySelector h = Normal None ->
     SmoothScroll.onClick querySelector (Some h) = Normal []) ∧
  (∀ href effs,
     SmoothScroll.onClick querySelector href = Normal effs -> effs ≠ [] ->
     ∃ target,
       href ≠ Some "#" ∧
       querySelector (SmoothScroll.selector_of href) = Normal (Some target) ∧
       effs = [PreventDefault; ScrollIntoView target "smooth" "start"]) ∧
  (∀ href e,
     SmoothScroll.onClick querySelector href = Throw e ↔
     href ≠ Some "#" ∧ querySelector (SmoothScroll.selector_of href) = Throw e) ∧
  (∀ doc other name target,
     Dom.plainIdent name = true -> Dom.getElementById doc name = Some target ->
     SmoothScroll.onClick (Dom.querySelector doc other) (Some ("#" +:+ name)) =
       Normal [PreventDefault; ScrollIntoView target "smooth" "start"]) ∧
  (∀ doc other name,
     Dom.plainIdent name = true -> Dom.getElementById doc name = None ->
     SmoothScroll.onClick (Dom.querySelector doc other) (Some ("#" +:+ name)) =
       Normal []) ∧
  (∀ doc other name,
     Dom.startsWithDigit name = true ->
     SmoothScroll.onClick (Dom.querySelector doc other) (Some ("#" +:+ name)) =
       Throw SyntaxError).
Proof.
  destruct (onClick_by_selector querySelector) as (H1 & H2 & H3 & H4 & H5 & H6).
  split; [exact H1|]. split; [exact H2|]. split; [exact H3|]. split; [exact H4|].
  split; [exact H5|]. split; [exact H6|].
  split; [|split].
  - intros doc other name target Hplain Hid.
    change ("#" +:+ name) with (String "#" name).
    destruct (onClick_by_selector (Dom.querySelector doc other)) as (_ & _ & Hfound & _).
    apply Hfound.
    + destruct name; [discriminate Hplain | discriminate].
    + by rewrite querySelector_plain, Hid.
  - intros doc other name Hplain Hid.
    change ("#" +:+ name) with (String "#" name).
    destruct (onClick_by_selector (Dom.querySelector doc other)) as (_ & _ & _ & Hnone & _).
    apply Hnone.
    + destruct name; [discriminate Hplain | discriminate].
    + by rewrite querySelector_plain, Hid.
  - intros doc other name Hdigit.
    change ("#" +:+ name) with (String "#" name).
    destruct (onClick_by_selector (Dom.querySelector doc other))
      as (_ & _ & _ & _ & _ & Hthrow).
    apply Hthrow. split.
    + destruct name; [discriminate Hdigit | discriminate].
    + by apply querySelector_digit.
Qed.

Lemma smooth_scroll_witness :
  let doc := [("section-1", ENode 1); ("section-2", ENode 2)] in
  let other := λ _ : string, Normal None in
  SmoothScroll.onClick (Dom.querySelector doc other) (Some "#section-2") =
    Normal [PreventDefault; ScrollIntoView (ENode 2) "smooth" "start"] ∧
  SmoothScroll.onClick (Dom.querySelector doc other) (Some "#missing-id") = Normal [] ∧
  SmoothScroll.onClick (Dom.querySelector doc other) (Some "#2024") = Throw SyntaxError.
Proof.
  cbv zeta.
  destruct (smooth_scroll_click (λ _ : string, Normal None))
    as (_ & _ & _ & _ & _ & _ & Hfound & Hmissing & Hdigit).
  split; [|split].
  - apply (Hfound _ _ "section-2"); reflexivity.
  - apply (Hmissing _ _ "missing-id"); reflexivity.
  - apply (Hdigit _ _ "2024"); reflexivity.
Defined.

(** C5, as stated, fails: a link to "#123" on a page that has an element
    with id "123" neither prevents the default nor scrolls; the lookup
    raises SyntaxError and the listener with it. *)
Lemma smooth_scroll_numeric_id_raises :
  let doc := [("top", ENode 0); ("123", ENode 1)] in
  Dom.getElementById doc "123" = Some (ENode 1) ∧
  SmoothScroll.onClick (Dom.querySelector doc (λ _, Normal None)) (Some "#123") =
    Throw SyntaxError.
Proof. split; reflexivity. Qed.

(** ** PDF links *)

Lemma setupErrorHandling_spec p :
  ∃ acts, Setup.setupErrorHandling p = Normal acts ∧
    ∀ a, a ∈ acts ↔
      (∃ i img, imgs p !! i = Some img ∧
                a = AddEventListener (EImg i) "error" (HImgError i) false) ∨
      (∃ i lk, links p !! i = Some lk ∧ PdfLink.selected (href lk) = true ∧
               a = AddEventListener (EAnchor i) "click" (HPdfClick i) false).
Proof.
  destruct (forEach_spec
    (λ (i : nat) (_ : Img), Normal [AddEventListener (EImg i) "error" (HImgError i) false])
    (λ (i : nat) (_ : Img), [AddEventListener (EImg i) "error" (HImgError i) false])
    (imgs p)) as (a1 & H1 & M1); [done|].
  destruct (forEach_spec
    (λ i a, if PdfLink.selected (href a)
            then Normal [AddEventListener (EAnchor i) "click" (HPdfClick i) false]
            else Normal [])
    (λ i a, if PdfLink.selected (href a)
            then [AddEventListener (EAnchor i) "click" (HPdfClick i) false]
            else [])
    (links p)) as (a2 & H2 & M2).
  { intros i x. by destruct (PdfLink.selected (href x)). }
  exists (a1 ++ a2). split.
  { unfold Setup.setupErrorHandling. rewrite H1. cbn. rewrite H2. reflexivity. }
  intros a. rewrite elem_of_app, M1, M2. split.
  - intros [(i & img & Hi & H)|(i & lk & Hi & H)].
    + left. exists i, img. apply list_elem_of_singleton in H. done.
    + right. exists i, lk. destruct (PdfLink.selected (href lk)).
      * apply list_elem_of_singleton in H. done.
      * by apply elem_of_nil in H.
  - intros [(i & img & Hi & ->)|(i & lk & Hi & Hsel & ->)].
    + left. exists i, img. split; [done|]. by apply list_elem_of_singleton.
    + right. exists i, lk. split; [done|]. rewrite Hsel. by apply list_elem_of_singleton.
Qed.

Lemma path_ends_in_pdf_selected href :
  PdfLink.path_ends_in_pdf href = true -> PdfLink.selected href = true.
Proof.
  destruct href as [url|]; [|done]. cbn. intros H.
  apply ends_with_spec in H as [before Hpath].
  destruct (path_of_prefix url) as [rest Hurl].
  apply includes_spec. exists before, rest.
  rewrite Hurl at 1. rewrite Hpath. apply string_app_assoc.
Qed.

(** C3, as the script has it: the loading indicator is attached to a link
    exactly when its href contains ".pdf" somewhere, which covers every
    link whose target path ends in ".pdf"; a click on such a link sets its
    text to "Loading..." and schedules the restoration of the text it had,
    1000 ms later. *)
Theorem pdf_indicator_attached (p : Page) :
  ∃ acts, Setup.setupErrorHandling p = Normal acts ∧
    (∀ i h, AddEventListener (EAnchor i) "click" h false ∈ acts ↔
       h = HPdfClick i ∧
       ∃ lk before after,
         links p !! i = Some lk ∧ href lk = Some (before +:+ ".pdf" +:+ after)) ∧
    (∀ i lk, links p !! i = Some lk -> PdfLink.path_ends_in_pdf (href lk) = true ->
       AddEventListener (EAnchor i) "click" (HPdfClick i) false ∈ acts) ∧
    (∀ i now st,
       textContent (PdfLink.anchors (PdfLink.onClick i now st) i) = "Loading..." ∧
       PdfLink.timers (PdfLink.onClick i now st) =
         PdfLink.timers st ++
         [{| due := now + 1000; owner := i;
             originalText := textContent (PdfLink.anchors st i) |}]).
Proof.
  destruct (setupErrorHandling_spec p) as (acts & Hacts & Hmem).
  exists acts. split; [exact Hacts|]. split; [|split].
  - intros i h. rewrite Hmem. split.
    + intros [(j & img & _ & [=])|(j & lk & Hlk & Hsel & [= <- <-])].
      split; [done|]. unfold PdfLink.selected in Hsel.
      destruct (href lk) as [url|] eqn:Hu; [|discriminate].
      apply includes_spec in Hsel as (before & after & ->). by exists lk, before, after.
    + intros [-> (lk & before & after & Hlk & Hh)]. right. exists i, lk.
      split; [done|]. split; [|done]. unfold PdfLink.selected. rewrite Hh.
      apply includes_spec. by exists before, after.
  - intros i lk Hlk Hpath. apply Hmem. right. exists i, lk.
    split; [done|]. split; [|done]. by apply path_ends_in_pdf_selected.
  - intros i now st. split; [|reflexivity].
    cbn. by rewrite fn_lookup_alter.
Qed.

Lemma pdf_indicator_witness :
  let p := {| hasIntersectionObserver := true; header := Some EHeader; imgs := [];
              links := [{| href := Some "assets/resume.pdf"; textContent := "Resume" |}];
              projectCards := []; gridItems := [] |} in
  ∃ acts, Setup.setupErrorHandling p = Normal acts ∧
          AddEventListener (EAnchor 0) "click" (HPdfClick 0) false ∈ acts.
Proof.
  cbv zeta.
  destruct (pdf_indicator_attached
    {| hasIntersectionObserver := true; header := Some EHeader; imgs := [];
       links := [{| href := Some "assets/resume.pdf"; textContent := "Resume" |}];
       projectCards := []; gridItems := [] |}) as (acts & Hacts & _ & Hpath & _).
  exists acts. split; [exact Hacts|].
  apply (Hpath 0%nat {| href := Some "assets/resume.pdf"; textContent := "Resume" |});
    reflexivity.
Defined.

(** C3, as stated, fails: a link whose href only contains ".pdf" in the
    middle receives the loading indicator although its path does not end
    in ".pdf". *)
Lemma pdf_indicator_on_inner_pdf :
  let p := {| hasIntersectionObserver := true; header := Some EHeader; imgs := [];
              links := [{| href := Some "notes.pdf.html"; textContent := "Notes" |}];
              projectCards := []; gridItems := [] |} in
  ∃ acts, Setup.setupErrorHandling p = Normal acts ∧
          AddEventListener (EAnchor 0) "click" (HPdfClick 0) false ∈ acts ∧
          PdfLink.path_ends_in_pdf (Some "notes.pdf.html") = false ∧
          ends_with ".pdf" "notes.pdf.html" = false.
Proof.
  cbv zeta. eexists. split; [reflexivity|].
  split; [apply list_elem_of_here | split; reflexivity].
Qed.

(** ** Repeated activation of a PDF link *)

Lemma foldl_fire_other (i : nat) (tms : list timer) (links : nat -> Anchor) :
  Forall (λ tm, owner tm ≠ i) tms ->
  foldl PdfLink.fire links tms i = links i.
Proof.
  intros H. revert links. induction H as [|tm tms Htm _ IH]; intros links; [done|].
  cbn. rewrite IH. unfold PdfLink.fire. by rewrite fn_lookup_alter_ne.
Qed.

Lemma fire_own (links : nat -> Anchor) (tm : timer) :
  textContent (PdfLink.fire links tm (owner tm)) = originalText tm.
Proof. unfold PdfLink.fire. by rewrite fn_lookup_alter. Qed.

Lemma Forall_filter_timer (P Q : timer -> Prop) `{∀ x, Decision (Q x)} (l : list timer) :
  Forall P l -> Forall P (filter Q l).
Proof.
  induction 1 as [|x l Hx _ IH]; [constructor|].
  rewrite filter_cons. destruct (decide (Q x)); [by constructor | done].
Qed.

(** The link's text once the clock reaches [T], when the queue holds
    other links' timers followed by this link's two timers. *)
Lemma tick_two_timers (i : nat) (T d1 d2 : Z) (x1 x2 : string)
    (links : nat -> Anchor) (others : list timer) :
  d1 <= d2 ->
  Forall (λ tm, owner tm ≠ i) others ->
  let st := {| PdfLink.anchors := links;
               PdfLink.timers := others ++
                 [{| due := d1; owner := i; originalText := x1 |};
                  {| due := d2; owner := i; originalText := x2 |}] |} in
  textContent (PdfLink.anchors (PdfLink.tick T st) i) =
    (if decide (d2 <= T) then x2
     else if decide (d1 <= T) then x1
     else textContent (links i)) ∧
  (d2 <= T -> Forall (λ tm, owner tm ≠ i) (PdfLink.timers (PdfLink.tick T st))).
Proof.
  intros Hd Hothers. cbv zeta. unfold PdfLink.tick. cbn [PdfLink.anchors PdfLink.timers].
  rewrite !list.filter_app, foldl_app.
  set (links' := foldl PdfLink.fire links (filter (λ tm, due tm <= T) others)).
  assert (Hl : links' i = links i).
  { apply foldl_fire_other. by apply Forall_filter_timer. }
  rewrite !filter_cons, !filter_nil. cbn [due].
  split.
  - destruct (decide (d2 <= T)) as [H2|H2].
    + destruct (decide (d1 <= T)) as [H1|H1]; [|lia]. cbn.
      apply (fire_own _ {| due := d2; owner := i; originalText := x2 |}).
    + destruct (decide (d1 <= T)) as [H1|H1]; cbn.
      * apply (fire_own _ {| due := d1; owner := i; originalText := x1 |}).
      * by rewrite Hl.
  - intros H2.
    destruct (decide (¬ d1 <= T)) as [?|_]; [lia|].
    destruct (decide (¬ d2 <= T)) as [?|_]; [lia|].
    rewrite app_nil_r. by apply Forall_filter_timer.
Qed.

(** C10: when a PDF link is clicked again before the first restoration
    timer is due, its text is still "Loading..." at the second click, the
    second listener captures "Loading..." as the text to restore, and from
    the moment both timers have fired the text is "Loading..." with no
    restoration of this link pending, so the original label does not come
    back.  (Between the two firings the first timer shows the original
    label.) *)
Theorem pdf_second_click_sticks (i : nat) (t1 t2 : Z) (st : PdfLink.state) :
  t1 <= t2 < t1 + 1000 ->
  Forall (λ tm, owner tm ≠ i) (PdfLink.timers st) ->
  let original := textContent (PdfLink.anchors st i) in
  let atSecondClick := PdfLink.tick t2 (PdfLink.onClick i t1 st) in
  let st2 := PdfLink.onClick i t2 atSecondClick in
  textContent (PdfLink.anchors atSecondClick i) = "Loading..." ∧
  (∃ others,
     Forall (λ tm, owner tm ≠ i) others ∧
     PdfLink.timers st2 =
       others ++ [{| due := t1 + 1000; owner := i; originalText := original |};
                  {| due := t2 + 1000; owner := i; originalText := "Loading..." |}]) ∧
  (∀ T, t2 + 1000 <= T ->
     textContent (PdfLink.anchors (PdfLink.tick T st2) i) = "Loading..." ∧
     Forall (λ tm, owner tm ≠ i) (PdfLink.timers (PdfLink.tick T st2))) ∧
  (∀ T, t2 <= T < t1 + 1000 ->
     textContent (PdfLink.anchors (PdfLink.tick T st2) i) = "Loading...") ∧
  (∀ T, t1 + 1000 <= T < t2 + 1000 ->
     textContent (PdfLink.anchors (PdfLink.tick T st2) i) = original).
Proof.
  intros Ht Hothers. cbv zeta.
  set (tm1 := {| due := t1 + 1000; owner := i;
                 originalText := textContent (PdfLink.anchors st i) |}).
  set (others := filter (λ tm, ¬ due tm <= t2) (PdfLink.timers st)).
  set (links1 := alter (PdfLink.setText "Loading...") i (PdfLink.anchors st)).
  set (links1' := foldl PdfLink.fire links1 (filter (λ tm, due tm <= t2) (PdfLink.timers st))).
  assert (Hoth : Forall (λ tm, owner tm ≠ i) others) by by apply Forall_filter_timer.
  assert (Htick : PdfLink.tick t2 (PdfLink.onClick i t1 st) =
                  {| PdfLink.anchors := links1'; PdfLink.timers := others ++ [tm1] |}).
  { unfold PdfLink.tick, PdfLink.onClick. cbn [PdfLink.anchors PdfLink.timers].
    rewrite !list.filter_app, !filter_cons, !filter_nil. cbn [due].
    destruct (decide (t1 + 1000 <= t2)) as [?|_]; [lia|].
    destruct (decide (¬ t1 + 1000 <= t2)) as [_|?]; [|lia].
    by rewrite app_nil_r. }
  assert (Htext : textContent (links1' i) = "Loading...").
  { unfold links1'. rewrite foldl_fire_other by by apply Forall_filter_timer.
    unfold links1. by rewrite fn_lookup_alter. }
  rewrite Htick. cbn [PdfLink.anchors].
  assert (Hst2 : PdfLink.onClick i t2
                   {| PdfLink.anchors := links1'; PdfLink.timers := others ++ [tm1] |} =
                 {| PdfLink.anchors := alter (PdfLink.setText "Loading...") i links1';
                    PdfLink.timers := others ++
                      [tm1; {| due := t2 + 1000; owner := i; originalText := "Loading..." |}] |}).
  { unfold PdfLink.onClick. cbn [PdfLink.anchors PdfLink.timers].
    rewrite Htext, <- app_assoc. reflexivity. }
  rewrite Hst2. clear Hst2 Htick.
  assert (Hnow : textContent (alter (PdfLink.setText "Loading...") i links1' i) = "Loading...")
    by by rewrite fn_lookup_alter.
  split; [exact Htext|]. split; [by exists others|].
  split; [|split]; intros T HT;
    destruct (tick_two_timers i T (t1 + 1000) (t2 + 1000)
                (textContent (PdfLink.anchors st i)) "Loading..."
                (alter (PdfLink.setText "Loading...") i links1') others
                ltac:(lia) Hoth) as [Htxt Hrest];
    fold tm1 in Htxt, Hrest; rewrite Htxt.
  - split; [|by apply Hrest]. destruct (decide (t2 + 1000 <= T)); [done | lia].
  - destruct (decide (t2 + 1000 <= T)); [lia|].
    destruct (decide (t1 + 1000 <= T)); [lia | done].
  - destruct (decide (t2 + 1000 <= T)); [lia|].
    destruct (decide (t1 + 1000 <= T)); [done | lia].
Qed.

Lemma pdf_second_click_witness :
  let st := {| PdfLink.anchors := λ _, {| href := Some "resume.pdf"; textContent := "Resume" |};
               PdfLink.timers := [] |} in
  textContent (PdfLink.anchors
    (PdfLink.tick 2000 (PdfLink.onClick 0 400 (PdfLink.tick 400 (PdfLink.onClick 0 0 st)))) 0)
  = "Loading...".
Proof.
  cbv zeta.
  destruct (pdf_second_click_sticks 0 0 400
    {| PdfLink.anchors := λ _, {| href := Some "resume.pdf"; textContent := "Resume" |};
       PdfLink.timers := [] |}) as (_ & _ & Hfinal & _).
  - lia.
  - constructor.
  - apply (Hfinal 2000). lia.
Defined.

(** ** Grid items *)

Lemma grid_item_in_range (n : nat) (j : Z) :
  0 <= j < Z.of_nat n -> Grid.item n j = Some (EGridItem (Z.to_nat j)).
Proof. intros H. unfold Grid.item. by rewrite bool_decide_eq_true_2. Qed.

Lemma setupKeyboardNavigation_spec p :
  ∃ acts, Setup.setupKeyboardNavigation p = Normal (acts ++ [Setup.escapeAction]) ∧
    ∀ a, a ∈ acts ↔
      ∃ i l, gridItems p !! i = Some (Some l) ∧
             a ∈ Setup.gridActions (length (gridItems p)) i (Some l).
Proof.
  unfold Setup.setupKeyboardNavigation. cbv zeta.
  set (n := length (gridItems p)).
  destruct (forEach_spec
    (λ index link, if negb (truthy link) then Normal []
                   else Normal (Setup.gridActions n index link))
    (λ index link, if negb (truthy link) then []
                   else Setup.gridActions n index link)
    (gridItems p)) as (acts & Hacts & Hmem).
  { intros i x. by destruct (negb (truthy x)). }
  assert (Hiff : ∀ a, (∃ j x, gridItems p !! j = Some x ∧
                         a ∈ (if negb (truthy x) then [] else Setup.gridActions n j x)) ↔
                      ∃ i l, gridItems p !! i = Some (Some l) ∧
                         a ∈ Setup.gridActions n i (Some l)).
  { intros a. split.
    - intros (j & [l|] & Hj & Ha); cbn in Ha; [by exists j, l | by apply elem_of_nil in Ha].
    - intros (i & l & Hi & Ha). by exists i, (Some l). }
  case_bool_decide as Hn.
  - exists acts. rewrite Hacts. split; [done|]. intros a. by rewrite Hmem, Hiff.
  - exists []. split; [done|]. intros a. split.
    + intros H. by apply elem_of_nil in H.
    + intros (i & l & Hi & _). apply lookup_lt_Some in Hi. fold n in Hi. lia.
Qed.

(** C7, as the script has it: the keydown listener is installed on every
    grid item that contains an activation link; ArrowRight on an item that
    is not the last prevents the default and focuses the next item,
    ArrowLeft on an item that is not the first prevents the default and
    focuses the previous item; ArrowRight on the last item and ArrowLeft on
    the first item do nothing at all: focus stays and the default is not
    prevented. *)
Theorem grid_arrow_navigation (n index : nat) (link : elem) :
  (∀ p, n = length (gridItems p) -> gridItems p !! index = Some (Some link) ->
     ∃ acts, Setup.setupKeyboardNavigation p = Normal acts ∧
       AddEventListener (EGridItem index) "keydown"
         (HGridKeydown n index (Some link)) false ∈ acts) ∧
  ((index + 1 < n)%nat ->
     Grid.onKeydown n index (Some link) "ArrowRight" =
       Normal [PreventDefault; Focus (EGridItem (index + 1))]) ∧
  ((0 < index < n)%nat ->
     Grid.onKeydown n index (Some link) "ArrowLeft" =
       Normal [PreventDefault; Focus (EGridItem (index - 1))]) ∧
  ((index + 1 = n)%nat ->
     Grid.onKeydown n index (Some link) "ArrowRight" = Normal []) ∧
  (index = 0%nat ->
     Grid.onKeydown n index (Some link) "ArrowLeft" = Normal []).
Proof.
  split; [|split; [|split; [|split]]].
  - intros p -> Hi.
    destruct (setupKeyboardNavigation_spec p) as (acts & Hacts & Hmem).
    exists (acts ++ [Setup.escapeAction]). split; [exact Hacts|].
    apply elem_of_app. left. apply Hmem. exists index, link. split; [done|].
    unfold Setup.gridActions. apply list_elem_of_further, list_elem_of_here.
  - intros H. unfold Grid.onKeydown. cbn [isActivationKey bool_decide].
    change (isActivationKey "ArrowRight") with false. cbn [mbind completion_bind].
    rewrite (bool_decide_eq_true_2 ("ArrowRight" = "ArrowRight")) by done.
    rewrite (bool_decide_eq_true_2 (Z.of_nat index < Z.of_nat n - 1)) by lia.
    cbn [andb]. rewrite grid_item_in_range by lia. cbn.
    repeat f_equal. lia.
  - intros H. unfold Grid.onKeydown.
    change (isActivationKey "ArrowLeft") with false. cbn [mbind completion_bind].
    rewrite (bool_decide_eq_false_2 ("ArrowLeft" = "ArrowRight")) by done.
    rewrite (bool_decide_eq_true_2 ("ArrowLeft" = "ArrowLeft")) by done.
    rewrite (bool_decide_eq_true_2 (Z.of_nat index > 0)) by lia.
    cbn [andb]. rewrite grid_item_in_range by lia. cbn.
    repeat f_equal. lia.
  - intros H. unfold Grid.onKeydown.
    change (isActivationKey "ArrowRight") with false. cbn [mbind completion_bind].
    rewrite (bool_decide_eq_false_2 (Z.of_nat index < Z.of_nat n - 1)) by lia.
    rewrite andb_false_r.
    rewrite (bool_decide_eq_false_2 ("ArrowRight" = "ArrowLeft")) by done.
    reflexivity.
  - intros ->. unfold Grid.onKeydown.
    change (isActivationKey "ArrowLeft") with false. cbn [mbind completion_bind].
    rewrite (bool_decide_eq_false_2 ("ArrowLeft" = "ArrowRight")) by done.
    rewrite (bool_decide_eq_false_2 (Z.of_nat 0 > 0)) by lia.
    rewrite andb_false_r. reflexivity.
Qed.

Lemma grid_arrow_witness :
  Grid.onKeydown 5 1 (Some (ELink 1)) "ArrowRight" =
    Normal [PreventDefault; Focus (EGridItem 2)] ∧
  Grid.onKeydown 5 4 (Some (ELink 4)) "ArrowRight" = Normal [].
Proof.
  split.
  - destruct (grid_arrow_navigation 5 1 (ELink 1)) as (_ & Hright & _).
    apply Hright. lia.
  - destruct (grid_arrow_navigation 5 4 (ELink 4)) as (_ & _ & _ & Hlast & _).
    apply Hlast. reflexivity.
Defined.

(** C7, as stated, fails: ArrowRight on the last of five grid items does
    not prevent the default (and ArrowLeft on the first does not either). *)
Lemma grid_arrow_at_edge_keeps_default :
  ∃ effs, Grid.onKeydown 5 4 (Some (ELink 4)) "ArrowRight" = Normal effs ∧
          (PreventDefault ∉ effs) ∧
          Grid.onKeydown 5 0 (Some (ELink 0)) "ArrowLeft" = Normal effs.
Proof.
  exists []. split; [reflexivity|]. split; [|reflexivity].
  intros H. by apply elem_of_nil in H.
Qed.

(** ** Lazy loading *)

Lemma load_has_no_deferred_source img :
  LazyLoad.hasDeferredSource (LazyLoad.load img) = false.
Proof. reflexivity. Qed.

(** Once an image is loaded and unobserved, later entries leave it so. *)
Lemma onEntry_loaded (i : nat) (img0 : Img) (e : LazyLoad.entry) (st : LazyLoad.state) :
  LazyLoad.images st i = LazyLoad.load img0 -> i ∉ LazyLoad.observed st ->
  LazyLoad.images (LazyLoad.onEntry e st) i = LazyLoad.load img0 ∧
  i ∉ LazyLoad.observed (LazyLoad.onEntry e st).
Proof.
  intros Himg Hobs. unfold LazyLoad.onEntry.
  destruct (LazyLoad.isIntersecting e); [|done]. cbv zeta.
  destruct (decide (LazyLoad.target e = i)) as [->|Hne].
  - by rewrite Himg, load_has_no_deferred_source.
  - destruct (LazyLoad.hasDeferredSource _); [|done]. cbn. split.
    + by rewrite fn_lookup_alter_ne.
    + rewrite elem_of_difference. tauto.
Qed.

Lemma callback_loaded (i : nat) (img0 : Img) (entries : list LazyLoad.entry)
    (st : LazyLoad.state) :
  LazyLoad.images st i = LazyLoad.load img0 -> i ∉ LazyLoad.observed st ->
  LazyLoad.images (LazyLoad.callback entries st) i = LazyLoad.load img0 ∧
  i ∉ LazyLoad.observed (LazyLoad.callback entries st).
Proof.
  revert st. induction entries as [|e entries IH]; intros st Himg Hobs; [done|].
  destruct (onEntry_loaded i img0 e st Himg Hobs) as [H1 H2].
  exact (IH _ H1 H2).
Qed.

Lemma callback_visible (i : nat) (entries : list LazyLoad.entry) (st : LazyLoad.state) :
  LazyLoad.hasDeferredSource (LazyLoad.images st i) = true ->
  {| LazyLoad.target := i; LazyLoad.isIntersecting := true |} ∈ entries ->
  LazyLoad.images (LazyLoad.callback entries st) i = LazyLoad.load (LazyLoad.images st i) ∧
  i ∉ LazyLoad.observed (LazyLoad.callback entries st).
Proof.
  revert st. induction entries as [|e entries IH]; intros st Hsrc Hin.
  - by apply elem_of_nil in Hin.
  - destruct e as [t b].
    destruct (decide (t = i ∧ b = true)) as [[-> ->]|Hother].
    + change (LazyLoad.callback
                ({| LazyLoad.target := i; LazyLoad.isIntersecting := true |} :: entries) st)
        with (LazyLoad.callback entries
                (LazyLoad.onEntry {| LazyLoad.target := i; LazyLoad.isIntersecting := true |} st)).
      apply callback_loaded with (img0 := LazyLoad.images st i);
        unfold LazyLoad.onEntry;
        cbn [LazyLoad.isIntersecting LazyLoad.target]; cbv zeta; rewrite Hsrc;
        cbn [LazyLoad.images LazyLoad.observed].
      * by rewrite fn_lookup_alter.
      * rewrite elem_of_difference, elem_of_singleton. tauto.
    + apply elem_of_cons in Hin as [[= <- <-]|Hin]; [tauto|].
      assert (Hsame : LazyLoad.images
                (LazyLoad.onEntry {| LazyLoad.target := t; LazyLoad.isIntersecting := b |} st) i
              = LazyLoad.images st i).
      { unfold LazyLoad.onEntry. cbn [LazyLoad.isIntersecting LazyLoad.target].
        destruct b; [|done]. cbv zeta.
        destruct (LazyLoad.hasDeferredSource (LazyLoad.images st t)); [|done].
        cbn [LazyLoad.images].
        rewrite fn_lookup_alter_ne; [done|]. intros ->. tauto. }
      change (LazyLoad.callback
                ({| LazyLoad.target := t; LazyLoad.isIntersecting := b |} :: entries) st)
        with (LazyLoad.callback entries
                (LazyLoad.onEntry {| LazyLoad.target := t; LazyLoad.isIntersecting := b |} st)).
      rewrite <- Hsame. apply IH; [by rewrite Hsame | done].
Qed.

Lemma callback_without_source (i : nat) (entries : list LazyLoad.entry)
    (st : LazyLoad.state) :
  LazyLoad.hasDeferredSource (LazyLoad.images st i) = false ->
  LazyLoad.images (LazyLoad.callback entries st) i = LazyLoad.images st i ∧
  (i ∈ LazyLoad.observed (LazyLoad.callback entries st) ↔ i ∈ LazyLoad.observed st).
Proof.
  revert st. induction entries as [|e entries IH]; intros st Hi; [done|].
  change (LazyLoad.callback (e :: entries) st)
    with (LazyLoad.callback entries (LazyLoad.onEntry e st)).
  assert (Hstep : LazyLoad.images (LazyLoad.onEntry e st) i = LazyLoad.images st i ∧
                  (i ∈ LazyLoad.observed (LazyLoad.onEntry e st) ↔
                   i ∈ LazyLoad.observed st)).
  { unfold LazyLoad.onEntry. destruct (LazyLoad.isIntersecting e); [|done]. cbv zeta.
    destruct (LazyLoad.hasDeferredSource (LazyLoad.images st (LazyLoad.target e)))
      eqn:Ht; [|done].
    assert (Hne : LazyLoad.target e ≠ i).
    { intros Heq. rewrite Heq in Ht. congruence. }
    cbn [LazyLoad.images LazyLoad.observed]. split.
    - by rewrite fn_lookup_alter_ne.
    - rewrite elem_of_difference, elem_of_singleton. split; [tauto|].
      intros Hobs. split; [done|]. intros Heq. by apply Hne. }
  destruct Hstep as [Himg Hobs].
  destruct (IH (LazyLoad.onEntry e st)) as [Himg' Hobs']; [by rewrite Himg|].
  split; [by rewrite Himg' | by rewrite Hobs'].
Qed.

(** C6, as the script has it: when an intersection event reports an image
    with a non-empty deferred source visible, the callback copies the
    deferred source into [src], removes the deferred attribute, removes the
    lazy class (keeping the other classes) and stops observing the image;
    an image whose deferred-source attribute is empty (or missing) is left
    exactly as it is by any intersection event, and stays observed if it
    was; with IntersectionObserver the script observes exactly the images
    of class lazy; without it the set-up does nothing, so no image is
    modified. *)
Theorem lazy_image_loaded :
  (∀ (i : nat) (entries : list LazyLoad.entry) (st : LazyLoad.state),
     data_src (LazyLoad.images st i) = Some "" ∨
     data_src (LazyLoad.images st i) = None ->
     LazyLoad.images (LazyLoad.callback entries st) i = LazyLoad.images st i ∧
     (i ∈ LazyLoad.observed (LazyLoad.callback entries st) ↔
      i ∈ LazyLoad.observed st)) ∧
  (∀ (i : nat) (s : string) (entries : list LazyLoad.entry) (st : LazyLoad.state),
     data_src (LazyLoad.images st i) = Some s -> s ≠ "" ->
     {| LazyLoad.target := i; LazyLoad.isIntersecting := true |} ∈ entries ->
     let img' := LazyLoad.images (LazyLoad.callback entries st) i in
     src img' = Some s ∧
     data_src img' = None ∧
     ("lazy" ∉ classList img') ∧
     (∀ c, c ≠ "lazy" -> c ∈ classList img' ↔ c ∈ classList (LazyLoad.images st i)) ∧
     i ∉ LazyLoad.observed (LazyLoad.callback entries st)) ∧
  (∀ p, hasIntersectionObserver p = true ->
     ∃ acts, Setup.setupImageLazyLoading p =
               Normal (NewIntersectionObserver HIntersection :: acts) ∧
       ∀ a, a ∈ acts ↔
         ∃ i img, imgs p !! i = Some img ∧ "lazy" ∈ classList img ∧ a = Observe i) ∧
  (∀ p, hasIntersectionObserver p = false ->
     Setup.setupImageLazyLoading p = Normal []).
Proof.
  split; [|split; [|split]].
  - intros i entries st Hempty. apply callback_without_source.
    unfold LazyLoad.hasDeferredSource. by destruct Hempty as [-> | ->].
  - intros i s entries st Hs Hne Hin. cbv zeta.
    assert (Hsrc : LazyLoad.hasDeferredSource (LazyLoad.images st i) = true).
    { unfold LazyLoad.hasDeferredSource. rewrite Hs.
      by rewrite bool_decide_eq_false_2. }
    destruct (callback_visible i entries st Hsrc Hin) as [-> Hobs].
    cbn. repeat split; try done.
    + rewrite list_elem_of_filter. tauto.
    + rewrite list_elem_of_filter. tauto.
    + intros Hc. by apply list_elem_of_filter.
  - intros p Hio. unfold Setup.setupImageLazyLoading. rewrite Hio.
    destruct (forEach_spec
      (λ i img, if LazyLoad.isLazy img then Normal [Observe i] else Normal [])
      (λ i img, if LazyLoad.isLazy img then [Observe i] else [])
      (imgs p)) as (acts & Hacts & Hmem).
    { intros i x. by destruct (LazyLoad.isLazy x). }
    exists acts. rewrite Hacts. split; [done|]. intros a. rewrite Hmem.
    split; intros (i & img & Hi & H); exists i, img; (split; [done|]).
    + unfold LazyLoad.isLazy in H. case_bool_decide.
      * by apply list_elem_of_singleton in H.
      * by apply elem_of_nil in H.
    + destruct H as [Hlazy ->]. unfold LazyLoad.isLazy.
      rewrite bool_decide_eq_true_2 by done. by apply list_elem_of_singleton.
  - intros p Hio. unfold Setup.setupImageLazyLoading. by rewrite Hio.
Qed.

Lemma lazy_image_witness :
  let img := {| src := None; data_src := Some "img/project.jpg";
                classList := ["lazy"; "photo"]; display := ""; parentNode := Some 0%nat |} in
  let st := {| LazyLoad.images := λ _, img; LazyLoad.observed := {[ 0%nat ]} |} in
  let entries := [{| LazyLoad.target := 0; LazyLoad.isIntersecting := true |}] in
  src (LazyLoad.images (LazyLoad.callback entries st) 0) = Some "img/project.jpg" ∧
  0%nat ∉ LazyLoad.observed (LazyLoad.callback entries st).
Proof.
  cbv zeta.
  destruct lazy_image_loaded as (_ & Hload & _ & _).
  destruct (Hload 0%nat "img/project.jpg"
    [{| LazyLoad.target := 0; LazyLoad.isIntersecting := true |}]
    {| LazyLoad.images := λ _,
         {| src := None; data_src := Some "img/project.jpg";
            classList := ["lazy"; "photo"]; display := ""; parentNode := Some 0%nat |};
       LazyLoad.observed := {[ 0%nat ]} |})
    as (Hsrc & _ & _ & _ & Hobs).
  - reflexivity.
  - discriminate.
  - apply list_elem_of_here.
  - split; [exact Hsrc | exact Hobs].
Defined.

(** C6, as stated, fails: an image of class lazy that carries an empty
    deferred-source attribute is left as it is when it becomes visible:
    attribute, class and observation all stay. *)
Lemma lazy_image_empty_source_kept :
  let img := {| src := None; data_src := Some ""; classList := ["lazy"];
                display := ""; parentNode := Some 0%nat |} in
  let st := {| LazyLoad.images := λ _, img; LazyLoad.observed := {[ 0%nat ]} |} in
  let st' := LazyLoad.callback
               [{| LazyLoad.target := 0; LazyLoad.isIntersecting := true |}] st in
  src (LazyLoad.images st' 0) = None ∧
  data_src (LazyLoad.images st' 0) = Some "" ∧
  "lazy" ∈ classList (LazyLoad.images st' 0) ∧
  0%nat ∈ LazyLoad.observed st'.
Proof.
  cbv zeta. split; [reflexivity|]. split; [reflexivity|]. split.
  - apply list_elem_of_here.
  - change (0%nat ∈ ({[ 0%nat ]} : gset nat)). set_solver.
Qed.

(** ** Image placeholders *)

Lemma insertBefore_at (new ref : child) (pre post : list child) :
  ref ∉ pre ->
  ErrorFallback.insertBefore new ref (pre ++ ref :: post) =
    Normal (pre ++ new :: ref :: post).
Proof.
  induction pre as [|k pre IH]; intros Hpre; cbn.
  - by rewrite decide_True.
  - apply not_elem_of_cons in Hpre as [Hk Hpre].
    rewrite decide_False by done. by rewrite IH.
Qed.

Lemma onError_attached (this p : nat) (pre post : list child) (d : ErrorFallback.dom) :
  parentNode (ErrorFallback.images d this) = Some p ->
  ErrorFallback.tree d !!! p = pre ++ CImg this :: post ->
  CImg this ∉ pre ->
  ErrorFallback.onError this d =
    Normal {| ErrorFallback.images := alter ErrorFallback.hide this (ErrorFallback.images d);
              ErrorFallback.tree :=
                <[p := pre ++ ErrorFallback.placeholder :: CImg this :: post]>
                  (ErrorFallback.tree d) |}.
Proof.
  intros Hp Hkids Hpre. unfold ErrorFallback.onError. cbv zeta.
  cbn [ErrorFallback.hide parentNode]. rewrite Hp. cbn [deref mbind completion_bind].
  rewrite Hkids, insertBefore_at by done. reflexivity.
Qed.

Lemma placeholders_replicate (n : nat) :
  filter (λ c, ErrorFallback.isPlaceholder c = true)
    (replicate n ErrorFallback.placeholder) = replicate n ErrorFallback.placeholder.
Proof.
  induction n as [|n IH]; [done|]. cbn [replicate].
  rewrite filter_cons_True by reflexivity. by rewrite IH.
Qed.

(** C4, as the script has it: every error event delivered to an image
    that sits in a parent hides the image and inserts one more placeholder
    with the text "Image Unavailable" immediately before it, so [n] events
    leave [n] placeholders in front of the image; a single event inserts
    exactly one. Nothing else in the document changes. *)
Theorem image_error_placeholders (this p : nat) (pre post : list child)
    (d : ErrorFallback.dom) (n : nat) :
  parentNode (ErrorFallback.images d this) = Some p ->
  ErrorFallback.tree d !!! p = pre ++ CImg this :: post ->
  CImg this ∉ pre ->
  ∃ d', ErrorFallback.onErrors n this d = Normal d' ∧
    ErrorFallback.tree d' !!! p =
      pre ++ replicate n ErrorFallback.placeholder ++ CImg this :: post ∧
    ErrorFallback.placeholders p d' = (ErrorFallback.placeholders p d + n)%nat ∧
    ((0 < n)%nat -> display (ErrorFallback.images d' this) = "none") ∧
    parentNode (ErrorFallback.images d' this) = Some p ∧
    (∀ q, q ≠ p -> ErrorFallback.tree d' !! q = ErrorFallback.tree d !! q) ∧
    (∀ j, j ≠ this -> ErrorFallback.images d' j = ErrorFallback.images d j).
Proof.
  revert d pre. induction n as [|n IH]; intros d pre Hp Hkids Hpre.
  - exists d. split; [done|]. split; [exact Hkids|]. split; [by rewrite Nat.add_0_r|].
    split; [lia|]. done.
  - set (d1 := {| ErrorFallback.images := alter ErrorFallback.hide this (ErrorFallback.images d);
                  ErrorFallback.tree :=
                    <[p := pre ++ ErrorFallback.placeholder :: CImg this :: post]>
                      (ErrorFallback.tree d) |}).
    assert (Hp1 : parentNode (ErrorFallback.images d1 this) = Some p).
    { cbn. by rewrite fn_lookup_alter. }
    assert (Hkids1 : ErrorFallback.tree d1 !!! p =
                     (pre ++ [ErrorFallback.placeholder]) ++ CImg this :: post).
    { cbn. rewrite lookup_total_insert_eq. by rewrite <- app_assoc. }
    assert (Hpre1 : CImg this ∉ pre ++ [ErrorFallback.placeholder]).
    { rewrite not_elem_of_app. split; [done|].
      rewrite list_elem_of_singleton. discriminate. }
    destruct (IH d1 _ Hp1 Hkids1 Hpre1)
      as (d' & Hrun & Htree & Hcount & Hdisp & Hpar & Hq & Hj).
    exists d'. split; [|split; [|split; [|split; [|split; [|split]]]]].
    + cbn [ErrorFallback.onErrors].
      rewrite (onError_attached this p pre post d Hp Hkids Hpre). exact Hrun.
    + rewrite Htree, <- app_assoc. reflexivity.
    + rewrite Hcount. unfold ErrorFallback.placeholders.
      rewrite Hkids1, Hkids, !list.filter_app.
      rewrite (filter_cons_True _ ErrorFallback.placeholder) by reflexivity.
      rewrite filter_nil, !length_app. cbn [length]. lia.
    + intros _. destruct n as [|n].
      * cbn in Hrun. injection Hrun as <-. cbn. by rewrite fn_lookup_alter.
      * apply Hdisp. lia.
    + exact Hpar.
    + intros q Hne. rewrite (Hq q Hne). cbn. by rewrite lookup_insert_ne.
    + intros j Hne. rewrite (Hj j Hne). cbn. by rewrite fn_lookup_alter_ne.
Qed.

Lemma image_error_witness :
  let img := {| src := Some "img/missing.jpg"; data_src := None; classList := [];
                display := ""; parentNode := Some 7%nat |} in
  let d := {| ErrorFallback.images := λ _, img;
              ErrorFallback.tree := {[ 7%nat := [COther 1; CImg 0; COther 2] ]} |} in
  ∃ d', ErrorFallback.onErrors 1 0 d = Normal d' ∧
    ErrorFallback.tree d' !!! 7%nat =
      [COther 1; ErrorFallback.placeholder; CImg 0; COther 2] ∧
    display (ErrorFallback.images d' 0) = "none".
Proof.
  cbv zeta.
  destruct (image_error_placeholders 0 7 [COther 1] [COther 2]
    {| ErrorFallback.images := λ _,
         {| src := Some "img/missing.jpg"; data_src := None; classList := [];
            display := ""; parentNode := Some 7%nat |};
       ErrorFallback.tree := {[ 7%nat := [COther 1; CImg 0; COther 2] ]} |} 1)
    as (d' & Hrun & Htree & _ & Hdisp & _).
  - reflexivity.
  - reflexivity.
  - rewrite list_elem_of_singleton. discriminate.
  - exists d'. split; [exact Hrun|]. split; [exact Htree|]. apply Hdisp. lia.
Defined.

(** C4, as stated, fails: two error events on the same image (its first
    source fails, the source set later fails too) leave two placeholders
    in front of it. *)
Lemma image_error_twice_two_placeholders :
  let img := {| src := Some "img/missing.jpg"; data_src := None; classList := [];
                display := ""; parentNode := Some 7%nat |} in
  let d := {| ErrorFallback.images := λ _, img;
              ErrorFallback.tree := {[ 7%nat := [CImg 0] ]} |} in
  ∃ d', ErrorFallback.onErrors 2 0 d = Normal d' ∧
    ErrorFallback.tree d' !!! 7%nat =
      [ErrorFallback.placeholder; ErrorFallback.placeholder; CImg 0] ∧
    ErrorFallback.placeholders 7 d' = 2%nat.
Proof.
  cbv zeta. eexists. split; [reflexivity|]. split; reflexivity.
Qed.

(** ** Initialisation on pages that lack optional elements *)

Lemma setupImageLazyLoading_spec p :
  ∃ acts, Setup.setupImageLazyLoading p = Normal acts ∧
    ∀ a h, a ∈ acts -> Setup.listener a = Some h -> h = HIntersection.
Proof.
  unfold Setup.setupImageLazyLoading.
  destruct (hasIntersectionObserver p).
  - destruct (forEach_spec
      (λ i img, if LazyLoad.isLazy img then Normal [Observe i] else Normal [])
      (λ i img, if LazyLoad.isLazy img then [Observe i] else [])
      (imgs p)) as (acts & Hacts & Hmem).
    { intros i x. by destruct (LazyLoad.isLazy x). }
    rewrite Hacts. eexists. split; [reflexivity|].
    intros a h Ha Hl. apply elem_of_cons in Ha as [->|Ha].
    + by injection Hl as <-.
    + apply Hmem in Ha as (i & img & _ & Ha).
      destruct (LazyLoad.isLazy img).
      * apply list_elem_of_singleton in Ha as ->. discriminate.
      * by apply elem_of_nil in Ha.
  - exists []. split; [done|]. intros a h Ha. by apply elem_of_nil in Ha.
Qed.

Lemma grid_onKeydown_total (n index : nat) (l : elem) (key : string) :
  (index < n)%nat -> ∃ effs, Grid.onKeydown n index (Some l) key = Normal effs.
Proof.
  intros Hi. unfold Grid.onKeydown.
  destruct (isActivationKey key); cbn [deref mbind completion_bind].
  - destruct (bool_decide (key = "ArrowRight") &&
              bool_decide (Z.of_nat index < Z.of_nat n - 1)) eqn:ER.
    + apply andb_true_iff in ER as [_ ER]. apply bool_decide_eq_true in ER.
      rewrite grid_item_in_range by lia. cbn. eauto.
    + destruct (bool_decide (key = "ArrowLeft") && bool_decide (Z.of_nat index > 0)) eqn:EL.
      * apply andb_true_iff in EL as [_ EL]. apply bool_decide_eq_true in EL.
        rewrite grid_item_in_range by lia. cbn. eauto.
      * cbn. eauto.
  - destruct (bool_decide (key = "ArrowRight") &&
              bool_decide (Z.of_nat index < Z.of_nat n - 1)) eqn:ER.
    + apply andb_true_iff in ER as [_ ER]. apply bool_decide_eq_true in ER.
      rewrite grid_item_in_range by lia. cbn. eauto.
    + destruct (bool_decide (key = "ArrowLeft") && bool_decide (Z.of_nat index > 0)) eqn:EL.
      * apply andb_true_iff in EL as [_ EL]. apply bool_decide_eq_true in EL.
        rewrite grid_item_in_range by lia. cbn. eauto.
      * cbn. eauto.
Qed.

Lemma onDocumentKeydown_total (backLink : option elem) (key : string) :
  ∃ effs, Grid.onDocumentKeydown backLink key = Normal effs ∧
          (backLink = None -> effs = []).
Proof.
  unfold Grid.onDocumentKeydown.
  destruct (bool_decide (key = "Escape")); [|by exists []].
  destruct backLink as [b|]; cbn; [|by exists []].
  exists [Click b]. split; [done | discriminate].
Qed.

Lemma smooth_onClick_Throw querySelector href e :
  SmoothScroll.onClick querySelector href = Throw e ->
  querySelector (SmoothScroll.selector_of href) = Throw e.
Proof.
  unfold SmoothScroll.onClick. case_bool_decide; [discriminate|].
  destruct (querySelector (SmoothScroll.selector_of href)) as [[t|]|]; cbn;
    [discriminate | discriminate | by intros [= ->]].
Qed.

(** A listener whose captured references are present raises only when
    the document raises underneath it. *)
Lemma run_guarded (e : Runtime.env) (h : handler) (ev : Runtime.event)
    (rt : Runtime.runtime) (err : jsError) :
  Runtime.guarded h ->
  Runtime.run e h ev rt = Throw err ->
  (∃ i, h = HAnchorClick i ∧
        Runtime.querySelector e
          (SmoothScroll.selector_of (href (Runtime.rt_anchors rt i))) = Throw err) ∨
  (∃ i, h = HImgError i ∧ ErrorFallback.onError i (Runtime.domOf rt) = Throw err).
Proof.
  intros Hg Hrun.
  destruct h as [|hd|i|l|c|c|c l|n index l| |i|i]; destruct ev; cbn in Hrun;
    try discriminate Hrun.
  - destruct Hg as [x ->]. discriminate Hrun.
  - left. exists i. split; [done|].
    apply bind_Throw in Hrun as [Hrun|(a & _ & [=])].
    by apply smooth_onClick_Throw.
  - destruct Hg as [x ->]. unfold Card.onKeydown in Hrun.
    destruct (isActivationKey key); discriminate Hrun.
  - destruct Hg as [x ->]. rewrite onTouchEnd_linked in Hrun. discriminate Hrun.
  - destruct Hg as [[x ->] Hi].
    destruct (grid_onKeydown_total n index x key Hi) as [effs Heffs].
    rewrite Heffs in Hrun. discriminate Hrun.
  - destruct (onDocumentKeydown_total (Runtime.backLink e) key) as (effs & Heffs & _).
    rewrite Heffs in Hrun. discriminate Hrun.
  - right. exists i. split; [done|].
    apply bind_Throw in Hrun as [Hrun|(a & _ & [=])]. exact Hrun.
Qed.

Lemma bind_Normal_inv {A B} (c : completion A) (k : A -> completion B) (b : B) :
  c ≫= k = Normal b -> ∃ a, c = Normal a ∧ k a = Normal b.
Proof. destruct c as [a|e]; [eauto | discriminate]. Qed.

Lemma callback_display (i : nat) (entries : list LazyLoad.entry) (st : LazyLoad.state) :
  display (LazyLoad.images (LazyLoad.callback entries st) i) =
    display (LazyLoad.images st i) ∧
  parentNode (LazyLoad.images (LazyLoad.callback entries st) i) =
    parentNode (LazyLoad.images st i).
Proof.
  revert st. induction entries as [|e entries IH]; intros st; [done|].
  change (LazyLoad.callback (e :: entries) st)
    with (LazyLoad.callback entries (LazyLoad.onEntry e st)).
  destruct (IH (LazyLoad.onEntry e st)) as [-> ->]. unfold LazyLoad.onEntry.
  destruct (LazyLoad.isIntersecting e); [|done]. cbv zeta.
  destruct (LazyLoad.hasDeferredSource _); [|done]. cbn [LazyLoad.images].
  destruct (decide (LazyLoad.target e = i)) as [<-|Hne].
  - by rewrite fn_lookup_alter.
  - by rewrite fn_lookup_alter_ne.
Qed.

Lemma onError_images (this : nat) (d d' : ErrorFallback.dom) :
  ErrorFallback.onError this d = Normal d' ->
  ErrorFallback.images d' = alter ErrorFallback.hide this (ErrorFallback.images d).
Proof.
  unfold ErrorFallback.onError. cbv zeta. intros H.
  apply bind_Normal_inv in H as (p & _ & H).
  apply bind_Normal_inv in H as (kids & _ & H).
  by injection H as <-.
Qed.

Lemma insertBefore_keeps (new ref x : child) (kids kids' : list child) :
  ErrorFallback.insertBefore new ref kids = Normal kids' -> x ∈ kids -> x ∈ kids'.
Proof.
  revert kids'. induction kids as [|k kids IH]; intros kids' H Hx; [discriminate H|].
  cbn in H. destruct (decide (k = ref)) as [->|Hne].
  - injection H as <-. by apply list_elem_of_further.
  - apply bind_Normal_inv in H as (rest & Hrest & H). injection H as <-.
    apply elem_of_cons in Hx as [->|Hx]; [apply list_elem_of_here|].
    apply list_elem_of_further. by apply IH.
Qed.

(** Every listener keeps the tree consistent. *)
Lemma run_wellFormed (e : Runtime.env) (h : handler) (ev : Runtime.event)
    (rt rt' : Runtime.runtime) (effs : list effect) :
  Runtime.wellFormed rt ->
  Runtime.run e h ev rt = Normal (rt', effs) ->
  Runtime.wellFormed rt'.
Proof.
  intros Hwf Hrun.
  destruct h as [|hd|a|l|c|c|c l|n index l| |j|a]; destruct ev; cbn in Hrun;
    try (injection Hrun as <- <-; exact Hwf);
    try (apply bind_Normal_inv in Hrun as (x & _ & Hrun);
         injection Hrun as <- <-; exact Hwf).
  - injection Hrun as <- <-. intros i p. cbn.
    destruct (callback_display i entries (Runtime.lazyOf rt)) as [_ ->]. apply Hwf.
  - apply bind_Normal_inv in Hrun as (d & Hd & Hrun). injection Hrun as <- <-.
    intros i q. cbn. rewrite (onError_images j _ d Hd).
    assert (Hpar : parentNode (alter ErrorFallback.hide j
                     (ErrorFallback.images (Runtime.domOf rt)) i) =
                   parentNode (Runtime.rt_images rt i)).
    { destruct (decide (j = i)) as [->|Hne].
      - by rewrite fn_lookup_alter.
      - by rewrite fn_lookup_alter_ne. }
    rewrite Hpar. intros Hq. apply Hwf in Hq.
    unfold ErrorFallback.onError in Hd. cbv zeta in Hd.
    apply bind_Normal_inv in Hd as (p & _ & Hd).
    apply bind_Normal_inv in Hd as (kids & Hkids & Hd). injection Hd as <-. cbn.
    destruct (decide (p = q)) as [->|Hne].
    + rewrite lookup_total_insert_eq. by eapply insertBefore_keeps.
    + by rewrite lookup_total_insert_ne.
  - injection Hrun as <- <-. intros i q. cbn. case_bool_decide as Hp; [discriminate|].
    intros Hq. rewrite lookup_total_insert_ne by congruence. by apply Hwf.
Qed.

Lemma insertBefore_total (new ref : child) (kids : list child) :
  ref ∈ kids -> ∃ kids', ErrorFallback.insertBefore new ref kids = Normal kids'.
Proof.
  induction kids as [|k kids IH]; intros Hin.
  - by apply elem_of_nil in Hin.
  - cbn. destruct (decide (k = ref)) as [->|Hne]; [eauto|].
    apply elem_of_cons in Hin as [->|Hin]; [done|].
    destruct (IH Hin) as [kids' ->]. cbn. eauto.
Qed.

(** A listener whose captured references are present raises in two
    situations only. *)
Lemma run_Throw_iff (e : Runtime.env) (h : handler) (ev : Runtime.event)
    (rt : Runtime.runtime) (err : jsError) :
  Runtime.guarded h ->
  Runtime.wellFormed rt ->
  Runtime.run e h ev rt = Throw err ↔
    (∃ i, h = HAnchorClick i ∧ ev = Runtime.EvClick ∧
          href (Runtime.rt_anchors rt i) ≠ Some "#" ∧
          Runtime.querySelector e
            (SmoothScroll.selector_of (href (Runtime.rt_anchors rt i))) = Throw err) ∨
    (∃ i, h = HImgError i ∧ ev = Runtime.EvError ∧
          parentNode (Runtime.rt_images rt i) = None ∧ err = TypeError).
Proof.
  intros Hg Hwf. split.
  - intros Hrun.
    destruct (run_guarded e h ev rt err Hg Hrun) as [(i & -> & Hq)|(i & -> & Herr)].
    + left. exists i. destruct ev; try discriminate Hrun. cbn in Hrun.
      split; [done|]. split; [done|]. split; [|done].
      intros Hh. unfold SmoothScroll.onClick in Hrun.
      rewrite bool_decide_eq_true_2 in Hrun by done. discriminate Hrun.
    + right. exists i. destruct ev; try discriminate Hrun.
      split; [done|]. split; [done|].
      unfold ErrorFallback.onError in Herr. cbv zeta in Herr.
      cbn [ErrorFallback.hide parentNode Runtime.domOf ErrorFallback.images
           ErrorFallback.tree] in Herr.
      destruct (parentNode (Runtime.rt_images rt i)) as [p|] eqn:Hp.
      * destruct (insertBefore_total ErrorFallback.placeholder (CImg i)
                    (Runtime.rt_tree rt !!! p) (Hwf i p Hp)) as [kids Hk].
        cbn in Herr. rewrite Hk in Herr. discriminate Herr.
      * cbn in Herr. by injection Herr as <-.
  - intros [(i & -> & -> & Hne & Hq)|(i & -> & -> & Hp & ->)]; cbn.
    + unfold SmoothScroll.onClick. rewrite bool_decide_eq_false_2 by done.
      by rewrite Hq.
    + unfold ErrorFallback.onError. cbv zeta.
      cbn [ErrorFallback.hide parentNode Runtime.domOf ErrorFallback.images].
      by rewrite Hp.
Qed.

(** C8, as the script has it: whatever optional elements a page lacks
    (header, the link of a card or of a grid item, the back link), each of
    the six set-up routines completes, and so does initializePortfolio,
    which performs the actions of all six in order. The theorem says what
    each routine installs: a missing header installs no scroll listener, a
    card or grid item without a link gets no attribute and no listener while
    every card and grid item that has one gets all of its own, and Escape
    without a back link does nothing; what one routine installs depends only
    on the elements it queries itself. Every installed listener completes on
    every event, with two exceptions that no absent optional element
    causes: the click listener of a fragment link raises exactly when
    [document.querySelector] raises on the link's href, and the error
    listener of an image raises a TypeError exactly when the image has no
    parent. This is said of a consistent tree (an image that has a parent
    is among the children of that parent), which every listener keeps
    consistent. *)
Theorem initialize_without_optional_elements (p : Page) :
  ∃ a1 a2 a3 a4 a5 a6,
    Setup.setupImageLazyLoading p = Normal a1 ∧
    Setup.setupResponsiveNavigation p = Normal a2 ∧
    Setup.setupSmoothScrolling p = Normal a3 ∧
    Setup.setupProjectCardInteractions p = Normal a4 ∧
    Setup.setupKeyboardNavigation p = Normal a5 ∧
    Setup.setupErrorHandling p = Normal a6 ∧
    Setup.initializePortfolio p = Normal (a1 ++ a2 ++ a3 ++ a4 ++ a5 ++ a6) ∧
    (hasIntersectionObserver p = false -> a1 = []) ∧
    (hasIntersectionObserver p = true ->
       ∃ observes, a1 = NewIntersectionObserver HIntersection :: observes ∧
         ∀ a, a ∈ observes ↔
           ∃ i img, imgs p !! i = Some img ∧ "lazy" ∈ classList img ∧ a = Observe i) ∧
    (header p = None -> a2 = []) ∧
    (∀ hd, header p = Some hd ->
       a2 = [AddEventListener EWindow "scroll" (HScroll (Some hd)) false]) ∧
    (∀ a, a ∈ a3 ↔
       ∃ i lk rest, links p !! i = Some lk ∧ href lk = Some ("#" +:+ rest) ∧
                    a = AddEventListener (EAnchor i) "click" (HAnchorClick i) false) ∧
    (∀ a, a ∈ a4 ↔
       ∃ i l, projectCards p !! i = Some (Some l) ∧ a ∈ Setup.cardActions i (Some l)) ∧
    (∀ a, a ∈ a5 ↔
       a = Setup.escapeAction ∨
       ∃ i l, gridItems p !! i = Some (Some l) ∧
              a ∈ Setup.gridActions (length (gridItems p)) i (Some l)) ∧
    (∀ a, a ∈ a6 ↔
       (∃ i img, imgs p !! i = Some img ∧
                 a = AddEventListener (EImg i) "error" (HImgError i) false) ∨
       (∃ i lk before after,
          links p !! i = Some lk ∧ href lk = Some (before +:+ ".pdf" +:+ after) ∧
          a = AddEventListener (EAnchor i) "click" (HPdfClick i) false)) ∧
    (∀ key, Grid.onDocumentKeydown None key = Normal []) ∧
    (∀ p', hasIntersectionObserver p' = hasIntersectionObserver p -> imgs p' = imgs p ->
       Setup.setupImageLazyLoading p' = Normal a1) ∧
    (∀ p', header p' = header p -> Setup.setupResponsiveNavigation p' = Normal a2) ∧
    (∀ p', links p' = links p -> Setup.setupSmoothScrolling p' = Normal a3) ∧
    (∀ p', projectCards p' = projectCards p ->
       Setup.setupProjectCardInteractions p' = Normal a4) ∧
    (∀ p', gridItems p' = gridItems p -> Setup.setupKeyboardNavigation p' = Normal a5) ∧
    (∀ p', imgs p' = imgs p -> links p' = links p ->
       Setup.setupErrorHandling p' = Normal a6) ∧
    (∀ a h, a ∈ a1 ++ a2 ++ a3 ++ a4 ++ a5 ++ a6 -> Setup.listener a = Some h ->
       ∀ e ev rt err, Runtime.wellFormed rt ->
         Runtime.run e h ev rt = Throw err ↔
           (∃ i, h = HAnchorClick i ∧ ev = Runtime.EvClick ∧
                 href (Runtime.rt_anchors rt i) ≠ Some "#" ∧
                 Runtime.querySelector e
                   (SmoothScroll.selector_of (href (Runtime.rt_anchors rt i))) =
                 Throw err) ∨
           (∃ i, h = HImgError i ∧ ev = Runtime.EvError ∧
                 parentNode (Runtime.rt_images rt i) = None ∧ err = TypeError)) ∧
    (∀ e h ev rt rt' effs, Runtime.wellFormed rt ->
       Runtime.run e h ev rt = Normal (rt', effs) -> Runtime.wellFormed rt').
Proof.
  assert (H1 : ∃ a1, Setup.setupImageLazyLoading p = Normal a1 ∧
            (hasIntersectionObserver p = false -> a1 = []) ∧
            (hasIntersectionObserver p = true ->
               ∃ observes, a1 = NewIntersectionObserver HIntersection :: observes ∧
                 ∀ a, a ∈ observes ↔
                   ∃ i img, imgs p !! i = Some img ∧ "lazy" ∈ classList img ∧
                            a = Observe i)).
  { unfold Setup.setupImageLazyLoading. destruct (hasIntersectionObserver p).
    - destruct (forEach_spec
        (λ i img, if LazyLoad.isLazy img then Normal [Observe i] else Normal [])
        (λ i img, if LazyLoad.isLazy img then [Observe i] else [])
        (imgs p)) as (obs & Hobs & Hmem).
      { intros i x. by destruct (LazyLoad.isLazy x). }
      rewrite Hobs. eexists. split; [reflexivity|]. split; [discriminate|].
      intros _. exists obs. split; [done|]. intros a. rewrite Hmem.
      split; intros (i & img & Hi & H); exists i, img; (split; [done|]).
      + unfold LazyLoad.isLazy in H. case_bool_decide.
        * by apply list_elem_of_singleton in H.
        * by apply elem_of_nil in H.
      + destruct H as [Hlazy ->]. unfold LazyLoad.isLazy.
        rewrite bool_decide_eq_true_2 by done. by apply list_elem_of_singleton.
    - exists []. split; [done|]. split; [done | discriminate]. }
  destruct H1 as (a1 & H1 & Hnone1 & Hsome1).
  destruct (setupImageLazyLoading_spec p) as (a1' & H1' & L1).
  assert (a1' = a1) as -> by congruence. clear H1'.
  pose (a2 := match header p with
              | Some hd => [AddEventListener EWindow "scroll" (HScroll (Some hd)) false]
              | None => []
              end).
  assert (H2 : Setup.setupResponsiveNavigation p = Normal a2).
  { unfold Setup.setupResponsiveNavigation, a2. by destruct (header p). }
  destruct (setupSmoothScrolling_spec p) as (a3 & H3 & M3).
  destruct (setupProjectCardInteractions_spec p) as (a4 & H4 & M4).
  destruct (setupKeyboardNavigation_spec p) as (a5 & H5 & M5).
  destruct (setupErrorHandling_spec p) as (a6 & H6 & M6).
  exists a1, a2, a3, a4, (a5 ++ [Setup.escapeAction]), a6.
  split; [exact H1|]. split; [exact H2|]. split; [exact H3|]. split; [exact H4|].
  split; [exact H5|]. split; [exact H6|].
  split. { unfold Setup.initializePortfolio. by rewrite H1, H2, H3, H4, H5, H6. }
  split; [exact Hnone1|]. split; [exact Hsome1|].
  split. { intros Hh. unfold a2. by rewrite Hh. }
  split. { intros hd Hh. unfold a2. by rewrite Hh. }
  split.
  { intros a. rewrite M3. split.
    - intros (i & lk & Hlk & Hsel & ->). unfold SmoothScroll.selected in Hsel.
      destruct (href lk) as [u|] eqn:Hu; [|discriminate].
      apply starts_with_spec in Hsel as [rest ->]. by exists i, lk, rest.
    - intros (i & lk & rest & Hlk & Hh & ->). exists i, lk. split; [done|].
      split; [|done]. unfold SmoothScroll.selected. rewrite Hh.
      apply starts_with_spec. by exists rest. }
  split; [exact M4|].
  split.
  { intros a. rewrite elem_of_app, list_elem_of_singleton, M5. tauto. }
  split.
  { intros a. rewrite M6. split.
    - intros [Himg|(i & lk & Hlk & Hsel & ->)]; [by left|]. right.
      unfold PdfLink.selected in Hsel.
      destruct (href lk) as [u|] eqn:Hu; [|discriminate].
      apply includes_spec in Hsel as (before & after & ->). by exists i, lk, before, after.
    - intros [Himg|(i & lk & before & after & Hlk & Hh & ->)]; [by left|]. right.
      exists i, lk. split; [done|]. split; [|done]. unfold PdfLink.selected.
      rewrite Hh. apply includes_spec. by exists before, after. }
  split.
  { intros key. unfold Grid.onDocumentKeydown. by destruct (bool_decide _). }
  split.
  { intros p' E1 E2. unfold Setup.setupImageLazyLoading in *. by rewrite E1, E2. }
  split.
  { intros p' E. unfold Setup.setupResponsiveNavigation in *. by rewrite E. }
  split.
  { intros p' E. unfold Setup.setupSmoothScrolling in *. by rewrite E. }
  split.
  { intros p' E. unfold Setup.setupProjectCardInteractions in *. by rewrite E. }
  split.
  { intros p' E. unfold Setup.setupKeyboardNavigation in *. by rewrite E. }
  split.
  { intros p' E1 E2. unfold Setup.setupErrorHandling in *. by rewrite E1, E2. }
  split; [|intros e h ev rt rt' effs Hwf Hrun; by eapply run_wellFormed].
  intros a h Ha Hl e ev rt err Hwf. apply run_Throw_iff; [|exact Hwf].
  rewrite !elem_of_app in Ha.
  destruct Ha as [Ha|[Ha|[Ha|[Ha|[[Ha|Ha]|Ha]]]]].
  - by rewrite (L1 a h Ha Hl).
  - unfold a2 in Ha. destruct (header p) as [hd|].
    + apply list_elem_of_singleton in Ha as ->. injection Hl as <-. by exists hd.
    + by apply elem_of_nil in Ha.
  - apply M3 in Ha as (i & lk & _ & _ & ->). by injection Hl as <-.
  - apply M4 in Ha as (i & l & _ & Ha). unfold Setup.cardActions in Ha.
    repeat (apply elem_of_cons in Ha as [->|Ha];
            [first [discriminate Hl | injection Hl as <-; cbn; eauto]|]).
    by apply elem_of_nil in Ha.
  - apply M5 in Ha as (i & l & Hi & Ha). apply lookup_lt_Some in Hi.
    unfold Setup.gridActions in Ha.
    repeat (apply elem_of_cons in Ha as [->|Ha];
            [first [discriminate Hl | injection Hl as <-; cbn; eauto]|]).
    by apply elem_of_nil in Ha.
  - apply list_elem_of_singleton in Ha as ->. by injection Hl as <-.
  - apply M6 in Ha as [(i & img & _ & ->)|(i & lk & _ & _ & ->)]; by injection Hl as <-.
Qed.

Lemma initialize_witness :
  let p := {| hasIntersectionObserver := false; header := None; imgs := [];
              links := [];
              projectCards := [None; Some (ELink 1)];
              gridItems := [Some (ELink 2); None] |} in
  ∃ acts, Setup.initializePortfolio p = Normal acts ∧
    AddEventListener (ECard 1) "touchend" (HTouchEnd 1 (Some (ELink 1))) false ∈ acts.
Proof.
  cbv zeta.
  destruct (initialize_without_optional_elements
    {| hasIntersectionObserver := false; header := None; imgs := []; links := [];
       projectCards := [None; Some (ELink 1)];
       gridItems := [Some (ELink 2); None] |})
    as (a1 & a2 & a3 & a4 & a5 & a6 & _ & _ & _ & _ & _ & _ & Hinit &
        _ & _ & _ & _ & _ & M4 & _).
  exists (a1 ++ a2 ++ a3 ++ a4 ++ a5 ++ a6). split; [exact Hinit|].
  rewrite !elem_of_app. right; right; right; left.
  apply M4. exists 1%nat, (ELink 1). split; [reflexivity|].
  unfold Setup.cardActions. do 4 apply list_elem_of_further. apply list_elem_of_here.
Defined.

(** C8, as stated, fails: two listeners that initializePortfolio installs
    raise. On a page with a link to "#123" (an element with id "123"
    exists), a PDF link and an image inside the PDF link: a click on the
    fragment link raises SyntaxError; and after a click on the PDF link,
    which removes the image from the link, an error event on the image
    raises TypeError. *)
Lemma installed_listeners_raise :
  let img := {| src := Some "img/badge.png"; data_src := None; classList := [];
                display := ""; parentNode := Some 100%nat |} in
  let cv := {| href := Some "cv.pdf"; textContent := "CV" |} in
  let section := {| href := Some "#123"; textContent := "Section" |} in
  let p := {| hasIntersectionObserver := true; header := None; imgs := [img];
              links := [cv; section]; projectCards := []; gridItems := [] |} in
  let rt := {| Runtime.rt_header := Header.init;
               Runtime.rt_touch := λ _, Touch.init;
               Runtime.rt_images := λ j, match j with O => img | _ => Runtime.detach img end;
               Runtime.rt_observed := ∅;
               Runtime.rt_tree := {[ 100%nat := [CImg 0] ]};
               Runtime.rt_anchors := λ a, match a with O => cv | _ => section end;
               Runtime.rt_timers := [];
               Runtime.rt_linkNode := λ a, (100 + a)%nat |} in
  let e := {| Runtime.viewport := {| Header.pageYOffset := 0; Header.docScrollTop := 0;
                                     Header.innerWidth := 375 |};
              Runtime.now := 0;
              Runtime.querySelector :=
                Dom.querySelector [("123", ENode 1)] (λ _, Normal None);
              Runtime.backLink := None |} in
  ∃ acts rt1,
    Runtime.wellFormed rt ∧
    Setup.initializePortfolio p = Normal acts ∧
    AddEventListener (EAnchor 1) "click" (HAnchorClick 1) false ∈ acts ∧
    AddEventListener (EImg 0) "error" (HImgError 0) false ∈ acts ∧
    AddEventListener (EAnchor 0) "click" (HPdfClick 0) false ∈ acts ∧
    Runtime.run e (HAnchorClick 1) Runtime.EvClick rt = Throw SyntaxError ∧
    Runtime.run e (HPdfClick 0) Runtime.EvClick rt = Normal (rt1, []) ∧
    Runtime.run e (HImgError 0) Runtime.EvError rt1 = Throw TypeError.
Proof.
  cbv zeta.
  exists [NewIntersectionObserver HIntersection;
          AddEventListener (EAnchor 1) "click" (HAnchorClick 1) false;
          Setup.escapeAction;
          AddEventListener (EImg 0) "error" (HImgError 0) false;
          AddEventListener (EAnchor 0) "click" (HPdfClick 0) false].
  eexists. split.
  { intros [|i] q; cbn; [|discriminate]. intros [= <-].
    rewrite lookup_total_singleton. apply list_elem_of_here. }
  split; [reflexivity|].
  split; [apply list_elem_of_further, list_elem_of_here|].
  split; [do 3 apply list_elem_of_further; apply list_elem_of_here|].
  split; [do 4 apply list_elem_of_further; apply list_elem_of_here|].
  split; [reflexivity|]. split; reflexivity.
Qed.

(** ** Further properties of the listeners *)

(** X1: at viewport widths above 768 the header is shown after every
    event of any scroll sequence, from any state. *)
Theorem header_shown_when_wide (vs : list Header.viewport) (st : Header.state) :
  Forall (λ v, Header.innerWidth v > 768) vs ->
  Forall (λ t, t = Header.shown) (Header.trace vs st).
Proof.
  intros Hw. revert st. induction Hw as [|v vs Hv _ IH]; intros st; cbn.
  - constructor.
  - constructor; [by apply onScroll_wide | apply IH].
Qed.

Lemma header_shown_when_wide_witness :
  let at_offset := λ y, {| Header.pageYOffset := y; Header.docScrollTop := y;
                           Header.innerWidth := 1280 |} in
  Forall (λ t, t = Header.shown)
    (Header.trace [at_offset 0; at_offset 400; at_offset 900] Header.init).
Proof.
  cbv zeta. apply header_shown_when_wide. repeat constructor.
Defined.

(** X2: on a project card with an activation link, Enter and Space
    prevent the default and click the link; every other key does nothing. *)
Theorem card_keyboard_activation (link : elem) (key : string) :
  Card.onKeydown (Some link) key =
    Normal (if decide (key = "Enter" ∨ key = " ")
            then [PreventDefault; Click link] else []).
Proof.
  unfold Card.onKeydown, isActivationKey.
  destruct (decide (key = "Enter" ∨ key = " ")) as [[->| ->]|Hn]; [done | done |].
  rewrite !bool_decide_eq_false_2 by tauto. reflexivity.
Qed.

(** X3: Escape anywhere on the page clicks the back link when there is
    one and does nothing when there is none; other keys do nothing. *)
Theorem escape_goes_back (backLink : option elem) (key : string) :
  Grid.onDocumentKeydown backLink key =
    Normal (match backLink with
            | Some b => if decide (key = "Escape") then [Click b] else []
            | None => []
            end).
Proof.
  unfold Grid.onDocumentKeydown.
  destruct backLink as [b|]; destruct (decide (key = "Escape")) as [->|Hn]; cbn;
    try reflexivity; by rewrite bool_decide_eq_false_2.
Qed.

(** X4: an error event on an image that has no parent raises a TypeError
    ([this.parentNode] is [null]); no placeholder is inserted. *)
Theorem image_error_detached (this : nat) (d : ErrorFallback.dom) :
  parentNode (ErrorFallback.images d this) = None ->
  ErrorFallback.onError this d = Throw TypeError.
Proof.
  intros Hp. unfold ErrorFallback.onError. cbv zeta.
  cbn [ErrorFallback.hide parentNode]. by rewrite Hp.
Qed.

Lemma image_error_detached_witness :
  let img := {| src := Some "img/missing.jpg"; data_src := None; classList := [];
                display := ""; parentNode := None |} in
  ErrorFallback.onError 0 {| ErrorFallback.images := λ _, img; ErrorFallback.tree := ∅ |}
  = Throw TypeError.
Proof.
  cbv zeta. apply image_error_detached. reflexivity.
Defined.

(** ** Debounce *)

Section DebounceProperties.
Context {A : Type}.
Variable wait : Z.

Lemma clearTimeout_settled (st : Debounce.state (A := A)) :
  Debounce.settled st ->
  Debounce.clearTimeout (Debounce.timeout st) (Debounce.queue st) = [].
Proof.
  intros [Hlen Hname]. destruct (Debounce.queue st) as [|j [|k q]] eqn:Hq.
  - by destruct (Debounce.timeout st).
  - rewrite (Hname j) by apply list_elem_of_here. unfold Debounce.clearTimeout.
    rewrite filter_cons_False by tauto. done.
  - cbn in Hlen. lia.
Qed.

Lemma call_armed (t : Z) (a : A) (st : Debounce.state) :
  Debounce.settled st ->
  Debounce.armed wait t a (Debounce.invoked st) (Debounce.executedFunction wait t a st).
Proof.
  intros Hs. exists (Debounce.nextHandle st), (S (Debounce.nextHandle st)).
  unfold Debounce.executedFunction. cbv zeta. by rewrite (clearTimeout_settled st Hs).
Qed.

Lemma armed_settled (t : Z) (a : A) (inv : list A) (st : Debounce.state) :
  Debounce.armed wait t a inv st -> Debounce.settled st.
Proof.
  intros (h & n & ->). split; cbn; [lia|].
  intros j Hj. by apply list_elem_of_singleton in Hj as ->.
Qed.

Lemma later_single (j : Debounce.job (A := A)) (tmo : option nat) (n : nat) (inv : list A) :
  Debounce.later j {| Debounce.timeout := tmo; Debounce.queue := [j];
                      Debounce.nextHandle := n; Debounce.invoked := inv |} =
    {| Debounce.timeout := tmo; Debounce.queue := [];
       Debounce.nextHandle := n; Debounce.invoked := inv ++ [Debounce.args j] |}.
Proof.
  unfold Debounce.later. cbn [Debounce.queue Debounce.timeout Debounce.nextHandle Debounce.invoked].
  rewrite filter_cons_False by tauto. rewrite filter_nil. by destruct tmo.
Qed.

Lemma tick_single (T : Z) (j : Debounce.job (A := A)) (tmo : option nat) (n : nat)
    (inv : list A) :
  Debounce.tick T {| Debounce.timeout := tmo; Debounce.queue := [j];
                     Debounce.nextHandle := n; Debounce.invoked := inv |} =
    if bool_decide (Debounce.fireAt j <= T)
    then {| Debounce.timeout := tmo; Debounce.queue := [];
            Debounce.nextHandle := n; Debounce.invoked := inv ++ [Debounce.args j] |}
    else {| Debounce.timeout := tmo; Debounce.queue := [j];
            Debounce.nextHandle := n; Debounce.invoked := inv |}.
Proof.
  unfold Debounce.tick. cbn -[Debounce.later]. by rewrite later_single.
Qed.

Lemma tick_armed (t T : Z) (a : A) (inv : list A) (st : Debounce.state) :
  Debounce.armed wait t a inv st ->
  (T < t + Debounce.delay wait -> Debounce.tick T st = st) ∧
  (t + Debounce.delay wait <= T ->
     Debounce.invoked (Debounce.tick T st) = inv ++ [a] ∧
     Debounce.queue (Debounce.tick T st) = [] ∧
     Debounce.settled (Debounce.tick T st)).
Proof.
  intros (h & n & ->). rewrite tick_single. cbn [Debounce.fireAt Debounce.args].
  split; intros HT.
  - by rewrite bool_decide_eq_false_2 by lia.
  - rewrite bool_decide_eq_true_2 by lia.
    split; [done|]. split; [done|]. split; cbn; [lia|].
    intros j Hj. by apply elem_of_nil in Hj.
Qed.

Lemma tick_settled (T : Z) (st : Debounce.state (A := A)) :
  Debounce.settled st ->
  Debounce.settled (Debounce.tick T st) ∧
  (Debounce.tick T st = st ∨
   ∃ j, Debounce.queue st = [j] ∧
        Debounce.queue (Debounce.tick T st) = [] ∧
        Debounce.invoked (Debounce.tick T st) = Debounce.invoked st ++ [Debounce.args j]).
Proof.
  intros Hs. pose proof Hs as [Hlen Hname].
  destruct st as [tmo q n inv]. cbn in Hlen, Hname. destruct q as [|j [|k q]].
  - by split; [|left].
  - rewrite tick_single. case_bool_decide; [|by split; [|left]].
    split.
    + split; cbn; [lia|]. intros x Hx. by apply elem_of_nil in Hx.
    + right. by exists j.
  - cbn in Hlen. lia.
Qed.

Lemma step_settled (st : Debounce.state (A := A)) (ev : Debounce.event) :
  Debounce.settled st -> Debounce.settled (Debounce.step wait st ev).
Proof.
  intros Hs. destruct ev as [t a|T]; cbn.
  - eapply armed_settled. by apply call_armed.
  - by apply tick_settled.
Qed.

Lemma run_snoc (evs : list Debounce.event) (ev : Debounce.event)
    (st : Debounce.state (A := A)) :
  Debounce.run wait (evs ++ [ev]) st = Debounce.step wait (Debounce.run wait evs st) ev.
Proof. unfold Debounce.run. by rewrite foldl_app. Qed.

Lemma run_settled (evs : list (Debounce.event (A := A))) :
  Debounce.settled (Debounce.run wait evs Debounce.init).
Proof.
  induction evs as [|ev evs IH] using rev_ind.
  - split; cbn; [lia|]. intros j Hj. by apply elem_of_nil in Hj.
  - rewrite run_snoc. by apply step_settled.
Qed.

Lemma callArgs_snoc (evs : list (Debounce.event (A := A))) (ev : Debounce.event) :
  Debounce.callArgs (evs ++ [ev]) =
    Debounce.callArgs evs ++
    match ev with Debounce.Call _ a => [a] | Debounce.Tick _ => [] end.
Proof. unfold Debounce.callArgs. rewrite omap_app. by destruct ev. Qed.

Lemma last_cons_default {B} (c d : B) (l : list B) :
  List.last (c :: l) d = List.last l c.
Proof.
  revert c d. induction l as [|x l IH]; intros c d; [done|].
  change (List.last (c :: x :: l) d) with (List.last (x :: l) d).
  by rewrite (IH x d), (IH x c).
Qed.

Lemma burst_rapid_armed (calls : list (Z * A)) (t : Z) (a : A) (inv : list A)
    (st : Debounce.state) :
  Debounce.armed wait t a inv st ->
  Debounce.rapid wait t calls ->
  Debounce.armed wait (List.last calls (t, a)).1 (List.last calls (t, a)).2 inv
    (Debounce.burst wait calls st).
Proof.
  revert t a st. induction calls as [|c calls IH]; intros t a st Harmed Hrapid; [done|].
  destruct Hrapid as [Hc Hrapid].
  rewrite last_cons_default.
  change (Debounce.burst wait (c :: calls) st)
    with (Debounce.burst wait calls
            (Debounce.executedFunction wait c.1 c.2 (Debounce.tick c.1 st))).
  destruct (tick_armed t c.1 a inv st Harmed) as [Hsame _].
  rewrite Hsame by lia.
  destruct c as [t' a']. apply IH; [|done].
  assert (Hinv : Debounce.invoked st = inv) by (by destruct Harmed as (h & n & ->)).
  rewrite <- Hinv. apply call_armed. by eapply armed_settled.
Qed.

Lemma burst_spaced_armed (calls : list (Z * A)) (t : Z) (a : A) (inv : list A)
    (st : Debounce.state) :
  Debounce.armed wait t a inv st ->
  Debounce.spaced wait t calls ->
  ∃ inv',
    Debounce.armed wait (List.last calls (t, a)).1 (List.last calls (t, a)).2 inv'
      (Debounce.burst wait calls st) ∧
    inv' ++ [(List.last calls (t, a)).2] = inv ++ a :: (snd <$> calls).
Proof.
  revert t a inv st.
  induction calls as [|c calls IH]; intros t a inv st Harmed Hspaced; [by exists inv|].
  destruct Hspaced as [Hc Hspaced].
  rewrite last_cons_default.
  change (Debounce.burst wait (c :: calls) st)
    with (Debounce.burst wait calls
            (Debounce.executedFunction wait c.1 c.2 (Debounce.tick c.1 st))).
  destruct (tick_armed t c.1 a inv st Harmed) as [_ Hfire].
  destruct Hfire as (Hinv & _ & Hsettled); [lia|].
  destruct c as [t' a'].
  destruct (IH t' a' (inv ++ [a])
              (Debounce.executedFunction wait t' a' (Debounce.tick t' st)))
    as (inv' & Harmed' & Heq); [|done|].
  { rewrite <- Hinv. by apply call_armed. }
  exists inv'. split; [done|]. rewrite Heq, <- app_assoc. reflexivity.
Qed.

(** X5: whatever calls and timer firings happen, in any order, at most one
    timer of a debounced function is pending; it is the one [timeout]
    names and it carries the arguments of the latest call; and the calls of
    [func] made so far, followed by the pending one, are a subsequence of
    the calls received: [func] is never called more often than the
    debounced function, never with arguments that were not passed, and
    never out of order. *)
Theorem debounce_one_pending (evs : list (Debounce.event (A := A))) :
  let st := Debounce.run wait evs Debounce.init in
  (length (Debounce.queue st) <= 1)%nat ∧
  (∀ j, j ∈ Debounce.queue st ->
     Debounce.timeout st = Some (Debounce.handle j) ∧
     list.last (Debounce.callArgs evs) = Some (Debounce.args j)) ∧
  sublist (Debounce.invoked st ++ (Debounce.args <$> Debounce.queue st))
          (Debounce.callArgs evs).
Proof.
  cbv zeta.
  assert (H : ∀ evs : list (Debounce.event (A := A)),
    (∀ j, j ∈ Debounce.queue (Debounce.run wait evs Debounce.init) ->
       list.last (Debounce.callArgs evs) = Some (Debounce.args j)) ∧
    sublist (Debounce.invoked (Debounce.run wait evs Debounce.init) ++
             (Debounce.args <$> Debounce.queue (Debounce.run wait evs Debounce.init)))
            (Debounce.callArgs evs)).
  { clear evs. intros evs. induction evs as [|ev evs [IHlast IHsub]] using rev_ind.
    - split; [|done]. intros j Hj. by apply elem_of_nil in Hj.
    - rewrite run_snoc, callArgs_snoc.
      pose proof (run_settled evs) as Hs.
      set (st := Debounce.run wait evs Debounce.init) in *.
      destruct ev as [t a|T]; cbn [Debounce.step].
      + destruct (call_armed t a st Hs) as (h & n & ->). cbn. split.
        * intros j Hj. apply list_elem_of_singleton in Hj as ->. cbn.
          by rewrite last_snoc.
        * apply sublist_app; [|done].
          etrans; [|exact IHsub]. by apply sublist_inserts_r.
      + rewrite app_nil_r.
        destruct (tick_settled T st Hs) as [_ [->|(j & Hq & Hq' & Hinv)]]; [done|].
        rewrite Hq', Hinv. split.
        * intros x Hx. by apply elem_of_nil in Hx.
        * rewrite Hq in IHsub. cbn in IHsub. by rewrite app_nil_r. }
  destruct (run_settled evs) as [Hlen Hname]. destruct (H evs) as [Hlast Hsub].
  split; [done|]. split; [|done]. intros j Hj. split; [by apply Hname | by apply Hlast].
Qed.

Lemma delay_in_range :
  0 <= Debounce.delay wait < 2 ^ 31 ∧
  (0 <= wait < 2 ^ 31 -> Debounce.delay wait = wait) ∧
  (- 2 ^ 31 <= wait < 0 -> Debounce.delay wait = 0) ∧
  (2 ^ 31 <= wait < 2 ^ 32 -> Debounce.delay wait = 0).
Proof.
  unfold Debounce.delay, Debounce.toInt32.
  pose proof (Z.mod_pos_bound (wait + 2 ^ 31) (2 ^ 32) ltac:(lia)) as Hb.
  split; [lia|]. split; [|split]; intros Hw.
  - rewrite Z.mod_small by lia. lia.
  - rewrite Z.mod_small by lia. lia.
  - replace (wait + 2 ^ 31) with (wait - 2 ^ 31 + 1 * 2 ^ 32) by lia.
    rewrite Z_mod_plus_full, Z.mod_small by lia. lia.
Qed.

Lemma burst_run (calls : list (Z * A)) (st : Debounce.state) :
  Debounce.run wait
    (flat_map (λ c, [Debounce.Tick c.1; Debounce.Call c.1 c.2]) calls) st =
  Debounce.burst wait calls st.
Proof.
  revert st. induction calls as [|c calls IH]; intros st; [done|].
  cbn [flat_map app]. unfold Debounce.run. cbn [foldl Debounce.step].
  apply IH.
Qed.

(** X6: the delay of a debounced function is [wait] as [setTimeout] reads
    it: [wait] itself from 0 up to 2^31 - 1, 0 for a negative [wait], and
    the signed 32-bit wrap beyond (0 from 2^31 up to 2^32 - 1). After a call
    at time [t], [func] is not called before [t] plus the delay; once the
    clock reaches that time it has been called once more, with that call's
    arguments, and no timer is left; and a further call made before the timer
    fires replaces the pending call, whose arguments [func] then never
    receives. *)
Theorem debounce_trailing_edge (evs : list (Debounce.event (A := A))) (t : Z) (a : A) :
  let st := Debounce.run wait evs Debounce.init in
  let st' := Debounce.executedFunction wait t a st in
  (0 <= Debounce.delay wait < 2 ^ 31 ∧
   (0 <= wait < 2 ^ 31 -> Debounce.delay wait = wait) ∧
   (- 2 ^ 31 <= wait < 0 -> Debounce.delay wait = 0) ∧
   (2 ^ 31 <= wait < 2 ^ 32 -> Debounce.delay wait = 0)) ∧
  Debounce.invoked st' = Debounce.invoked st ∧
  (∀ T, T < t + Debounce.delay wait -> Debounce.tick T st' = st') ∧
  (∀ T, t + Debounce.delay wait <= T ->
     Debounce.invoked (Debounce.tick T st') = Debounce.invoked st ++ [a] ∧
     Debounce.queue (Debounce.tick T st') = []) ∧
  (∀ t' a' T, t' + Debounce.delay wait <= T ->
     Debounce.invoked (Debounce.tick T (Debounce.executedFunction wait t' a' st')) =
       Debounce.invoked st ++ [a'] ∧
     Debounce.queue (Debounce.tick T (Debounce.executedFunction wait t' a' st')) = []).
Proof.
  cbv zeta. pose proof (run_settled evs) as Hs.
  set (st := Debounce.run wait evs Debounce.init) in *.
  pose proof (call_armed t a st Hs) as Harmed.
  split; [exact delay_in_range|]. split; [done|]. split; [|split].
  - intros T HT. by apply (tick_armed t T a _ _ Harmed).
  - intros T HT. destruct (tick_armed t T a _ _ Harmed) as [_ Hfire].
    destruct (Hfire HT) as (H1 & H2 & _). done.
  - intros t' a' T HT.
    pose proof (call_armed t' a' _ (armed_settled _ _ _ _ Harmed)) as Harmed'.
    destruct (tick_armed t' T a' _ _ Harmed') as [_ Hfire].
    destruct (Hfire HT) as (H1 & H2 & _). done.
Qed.

(** X7: a burst of calls, each made less than the delay after the
    previous one, the timers that are due being run before each call, leads
    to exactly one call of [func]: nothing is called until the clock reaches
    the last call's time plus the delay, and then [func] is called once, with
    the arguments of the last call. The delay is [wait] itself when
    [0 <= wait < 2^31]. *)
Theorem debounce_burst (evs : list (Debounce.event (A := A))) (t : Z) (a : A)
    (calls : list (Z * A)) :
  Debounce.rapid wait t calls ->
  let st := Debounce.run wait evs Debounce.init in
  let st' := Debounce.run wait
               (Debounce.Call t a ::
                flat_map (λ c, [Debounce.Tick c.1; Debounce.Call c.1 c.2]) calls) st in
  let final := List.last calls (t, a) in
  Debounce.invoked st' = Debounce.invoked st ∧
  (∀ T, T < final.1 + Debounce.delay wait ->
     Debounce.invoked (Debounce.tick T st') = Debounce.invoked st) ∧
  (∀ T, final.1 + Debounce.delay wait <= T ->
     Debounce.invoked (Debounce.tick T st') = Debounce.invoked st ++ [final.2] ∧
     Debounce.queue (Debounce.tick T st') = []) ∧
  (0 <= wait < 2 ^ 31 -> Debounce.delay wait = wait).
Proof.
  intros Hrapid. cbv zeta. pose proof (run_settled evs) as Hs.
  set (st := Debounce.run wait evs Debounce.init) in *.
  change (Debounce.run wait
            (Debounce.Call t a ::
             flat_map (λ c, [Debounce.Tick c.1; Debounce.Call c.1 c.2]) calls) st)
    with (Debounce.run wait
            (flat_map (λ c, [Debounce.Tick c.1; Debounce.Call c.1 c.2]) calls)
            (Debounce.executedFunction wait t a st)).
  rewrite burst_run.
  pose proof (burst_rapid_armed calls t a _ _ (call_armed t a st Hs) Hrapid) as Harmed.
  assert (Hinv : Debounce.invoked
            (Debounce.burst wait calls (Debounce.executedFunction wait t a st)) =
          Debounce.invoked st) by (by destruct Harmed as (h & n & ->)).
  split; [exact Hinv|]. split; [|split].
  - intros T HT. destruct (tick_armed _ T _ _ _ Harmed) as [Hsame _].
    by rewrite Hsame.
  - intros T HT. destruct (tick_armed _ T _ _ _ Harmed) as [_ Hfire].
    destruct (Hfire HT) as (H1 & H2 & _). done.
  - apply delay_in_range.
Qed.

(** X8: when the timers that are due are run before each call, calls that
    are each made more than the delay after the previous one all get
    through: [func] is called once per call, in order, with each call's
    arguments. The delay is [wait] itself when [0 <= wait < 2^31]. *)
Theorem debounce_spaced (evs : list (Debounce.event (A := A))) (t : Z) (a : A)
    (calls : list (Z * A)) :
  Debounce.spaced wait t calls ->
  let st := Debounce.run wait evs Debounce.init in
  let st' := Debounce.run wait
               (Debounce.Call t a ::
                flat_map (λ c, [Debounce.Tick c.1; Debounce.Call c.1 c.2]) calls) st in
  (∀ T, (List.last calls (t, a)).1 + Debounce.delay wait <= T ->
     Debounce.invoked (Debounce.tick T st') = Debounce.invoked st ++ a :: (snd <$> calls) ∧
     Debounce.queue (Debounce.tick T st') = []) ∧
  (0 <= wait < 2 ^ 31 -> Debounce.delay wait = wait).
Proof.
  intros Hspaced. cbv zeta. split; [|apply delay_in_range].
  intros T HT. pose proof (run_settled evs) as Hs.
  set (st := Debounce.run wait evs Debounce.init) in *.
  change (Debounce.run wait
            (Debounce.Call t a ::
             flat_map (λ c, [Debounce.Tick c.1; Debounce.Call c.1 c.2]) calls) st)
    with (Debounce.run wait
            (flat_map (λ c, [Debounce.Tick c.1; Debounce.Call c.1 c.2]) calls)
            (Debounce.executedFunction wait t a st)).
  rewrite burst_run.
  destruct (burst_spaced_armed calls t a _ _ (call_armed t a st Hs) Hspaced)
    as (inv' & Harmed & Heq).
  destruct (tick_armed _ T _ _ _ Harmed) as [_ Hfire].
  destruct (Hfire HT) as (H1 & H2 & _). by rewrite H1, Heq.
Qed.

End DebounceProperties.

Lemma debounce_burst_witness :
  Debounce.invoked
    (Debounce.tick 600
       (Debounce.run 300
          [Debounce.Call 0 "resize 1";
           Debounce.Tick 100; Debounce.Call 100 "resize 2";
           Debounce.Tick 250; Debounce.Call 250 "resize 3"]
          Debounce.init))
  = ["resize 3"].
Proof.
  assert (Hd : Debounce.delay 300 = 300) by reflexivity.
  destruct (debounce_burst 300 [] 0 "resize 1" [(100, "resize 2"); (250, "resize 3")])
    as (_ & _ & Hfire & _).
  - unfold Debounce.rapid. rewrite Hd. cbn. lia.
  - apply (Hfire 600). rewrite Hd. cbn. lia.
Defined.

Lemma debounce_spaced_witness :
  Debounce.invoked
    (Debounce.tick 2000
       (Debounce.run 300
          [Debounce.Call 0 "resize 1";
           Debounce.Tick 500; Debounce.Call 500 "resize 2";
           Debounce.Tick 1000; Debounce.Call 1000 "resize 3"]
          Debounce.init))
  = ["resize 1"; "resize 2"; "resize 3"].
Proof.
  assert (Hd : Debounce.delay 300 = 300) by reflexivity.
  destruct (debounce_spaced 300 [] 0 "resize 1" [(500, "resize 2"); (1000, "resize 3")])
    as [Hall _].
  - unfold Debounce.spaced. rewrite Hd. cbn. lia.
  - destruct (Hall 2000) as [Hinv _]; [rewrite Hd; cbn; lia | exact Hinv].
Defined.

(** ** A single activation of a PDF link *)

Lemma foldl_fire_href (tms : list timer) (links : nat -> Anchor) (j : nat) :
  href (foldl PdfLink.fire links tms j) = href (links j).
Proof.
  revert links. induction tms as [|tm tms IH]; intros links; [done|].
  cbn. rewrite IH. unfold PdfLink.fire.
  destruct (decide (owner tm = j)) as [<-|Hne].
  - by rewrite fn_lookup_alter.
  - by rewrite fn_lookup_alter_ne.
Qed.

(** X9: one click on a PDF link that has no restoration pending shows
    "Loading..." until 1000 ms have passed and the text the link had before
    from then on, with no timer of the link left; the link's href is never
    changed, and the click leaves every other link as it was. *)
Theorem pdf_click_round_trip (i : nat) (t : Z) (st : PdfLink.state) :
  Forall (λ tm, owner tm ≠ i) (PdfLink.timers st) ->
  let original := textContent (PdfLink.anchors st i) in
  let st' := PdfLink.onClick i t st in
  (∀ T, T < t + 1000 ->
     textContent (PdfLink.anchors (PdfLink.tick T st') i) = "Loading...") ∧
  (∀ T, t + 1000 <= T ->
     textContent (PdfLink.anchors (PdfLink.tick T st') i) = original ∧
     Forall (λ tm, owner tm ≠ i) (PdfLink.timers (PdfLink.tick T st'))) ∧
  (∀ T, href (PdfLink.anchors (PdfLink.tick T st') i) = href (PdfLink.anchors st i)) ∧
  (∀ j, j ≠ i -> PdfLink.anchors st' j = PdfLink.anchors st j).
Proof.
  intros Hothers. cbv zeta. split; [|split; [|split]].
  - intros T HT. unfold PdfLink.tick, PdfLink.onClick.
    cbn [PdfLink.anchors PdfLink.timers].
    rewrite list.filter_app, filter_cons_False, filter_nil, app_nil_r by (cbn; lia).
    rewrite foldl_fire_other by by apply Forall_filter_timer.
    by rewrite fn_lookup_alter.
  - intros T HT. unfold PdfLink.tick, PdfLink.onClick.
    cbn [PdfLink.anchors PdfLink.timers]. rewrite !list.filter_app. split.
    + rewrite filter_cons_True, filter_nil, foldl_app by (cbn; lia). cbn [foldl].
      apply (fire_own _ {| due := t + 1000; owner := i;
                           originalText := textContent (PdfLink.anchors st i) |}).
    + rewrite (filter_cons_False (λ tm, ¬ due tm <= T)), filter_nil, app_nil_r
        by (cbn; lia).
      by apply Forall_filter_timer.
  - intros T. unfold PdfLink.tick. cbn [PdfLink.anchors].
    rewrite foldl_fire_href. cbn. by rewrite fn_lookup_alter.
  - intros j Hne. cbn. by rewrite fn_lookup_alter_ne.
Qed.

Lemma pdf_click_round_trip_witness :
  let st := {| PdfLink.anchors := λ _, {| href := Some "resume.pdf"; textContent := "Resume" |};
               PdfLink.timers := [] |} in
  textContent (PdfLink.anchors (PdfLink.tick 999 (PdfLink.onClick 0 0 st)) 0) = "Loading..." ∧
  textContent (PdfLink.anchors (PdfLink.tick 1000 (PdfLink.onClick 0 0 st)) 0) = "Resume".
Proof.
  cbv zeta.
  destruct (pdf_click_round_trip 0 0
    {| PdfLink.anchors := λ _, {| href := Some "resume.pdf"; textContent := "Resume" |};
       PdfLink.timers := [] |}) as (Hbefore & Hafter & _).
  - constructor.
  - split; [apply (Hbefore 999); lia | apply (Hafter 1000); lia].
Defined.

(** ** The observer callback, again *)

Lemma onEntry_keeps_loaded (i : nat) (e : LazyLoad.entry) (st : LazyLoad.state) :
  LazyLoad.hasDeferredSource (LazyLoad.images st i) = false ->
  LazyLoad.hasDeferredSource (LazyLoad.images (LazyLoad.onEntry e st) i) = false.
Proof.
  intros Hi. unfold LazyLoad.onEntry.
  destruct (LazyLoad.isIntersecting e); [|done]. cbv zeta.
  destruct (LazyLoad.hasDeferredSource (LazyLoad.images st (LazyLoad.target e))) eqn:Ht;
    [|done].
  cbn [LazyLoad.images]. destruct (decide (LazyLoad.target e = i)) as [<-|Hne].
  - by rewrite fn_lookup_alter.
  - by rewrite fn_lookup_alter_ne.
Qed.

Lemma callback_keeps_loaded (i : nat) (entries : list LazyLoad.entry) (st : LazyLoad.state) :
  LazyLoad.hasDeferredSource (LazyLoad.images st i) = false ->
  LazyLoad.hasDeferredSource (LazyLoad.images (LazyLoad.callback entries st) i) = false.
Proof.
  revert st. induction entries as [|e entries IH]; intros st Hi; [done|].
  apply (IH (LazyLoad.onEntry e st)). by apply onEntry_keeps_loaded.
Qed.

Lemma onEntry_settles_target (e : LazyLoad.entry) (st : LazyLoad.state) :
  LazyLoad.isIntersecting e = true ->
  LazyLoad.hasDeferredSource
    (LazyLoad.images (LazyLoad.onEntry e st) (LazyLoad.target e)) = false.
Proof.
  intros He. unfold LazyLoad.onEntry. rewrite He. cbv zeta.
  destruct (LazyLoad.hasDeferredSource (LazyLoad.images st (LazyLoad.target e))) eqn:Ht;
    [|done].
  cbn [LazyLoad.images]. by rewrite fn_lookup_alter.
Qed.

Lemma callback_settles (entries : list LazyLoad.entry) (st : LazyLoad.state)
    (e : LazyLoad.entry) :
  e ∈ entries -> LazyLoad.isIntersecting e = true ->
  LazyLoad.hasDeferredSource
    (LazyLoad.images (LazyLoad.callback entries st) (LazyLoad.target e)) = false.
Proof.
  revert st. induction entries as [|e0 entries IH]; intros st Hin He.
  - by apply elem_of_nil in Hin.
  - apply elem_of_cons in Hin as [->|Hin].
    + apply (callback_keeps_loaded _ entries (LazyLoad.onEntry e0 st)).
      by apply onEntry_settles_target.
    + by apply (IH (LazyLoad.onEntry e0 st)).
Qed.

Lemma callback_fixed (entries : list LazyLoad.entry) (st : LazyLoad.state) :
  (∀ e, e ∈ entries -> LazyLoad.isIntersecting e = true ->
     LazyLoad.hasDeferredSource (LazyLoad.images st (LazyLoad.target e)) = false) ->
  LazyLoad.callback entries st = st.
Proof.
  induction entries as [|e entries IH]; intros H; [done|].
  assert (He : LazyLoad.onEntry e st = st).
  { unfold LazyLoad.onEntry. destruct (LazyLoad.isIntersecting e) eqn:Hi; [|done].
    cbv zeta. by rewrite (H e (list_elem_of_here _ _) Hi). }
  change (LazyLoad.callback (e :: entries) st)
    with (LazyLoad.callback entries (LazyLoad.onEntry e st)).
  rewrite He. apply IH. intros e' Hin. apply H. by apply list_elem_of_further.
Qed.

Lemma callback_frame (i : nat) (entries : list LazyLoad.entry) (st : LazyLoad.state) :
  (∀ e, e ∈ entries -> LazyLoad.isIntersecting e = true -> LazyLoad.target e ≠ i) ->
  LazyLoad.images (LazyLoad.callback entries st) i = LazyLoad.images st i ∧
  (i ∈ LazyLoad.observed (LazyLoad.callback entries st) ↔ i ∈ LazyLoad.observed st).
Proof.
  revert st. induction entries as [|e entries IH]; intros st H; [done|].
  change (LazyLoad.callback (e :: entries) st)
    with (LazyLoad.callback entries (LazyLoad.onEntry e st)).
  destruct (IH (LazyLoad.onEntry e st)) as [Himg Hobs].
  { intros e' Hin. apply H. by apply list_elem_of_further. }
  rewrite Himg, Hobs. unfold LazyLoad.onEntry.
  destruct (LazyLoad.isIntersecting e) eqn:Hi; [|done]. cbv zeta.
  destruct (LazyLoad.hasDeferredSource (LazyLoad.images st (LazyLoad.target e))); [|done].
  cbn [LazyLoad.images LazyLoad.observed].
  pose proof (H e (list_elem_of_here _ _) Hi) as Hne. split.
  - by rewrite fn_lookup_alter_ne.
  - rewrite elem_of_difference, elem_of_singleton. split; [tauto|].
    intros Hi'. split; [done|]. intros ->. tauto.
Qed.

Lemma callback_observed_shrinks (i : nat) (entries : list LazyLoad.entry)
    (st : LazyLoad.state) :
  i ∈ LazyLoad.observed (LazyLoad.callback entries st) -> i ∈ LazyLoad.observed st.
Proof.
  revert st. induction entries as [|e entries IH]; intros st Hi; [done|].
  apply (IH (LazyLoad.onEntry e st)) in Hi. revert Hi. unfold LazyLoad.onEntry.
  destruct (LazyLoad.isIntersecting e); [|done]. cbv zeta.
  destruct (LazyLoad.hasDeferredSource _); [|done].
  cbn [LazyLoad.observed]. rewrite elem_of_difference. tauto.
Qed.

(** X10: the observer callback is idempotent: delivering the same entries
    a second time changes nothing; it touches only images that some entry
    reports visible (every other image keeps its attributes, classes and
    observation), and it never starts observing anything. *)
Theorem lazy_callback_idempotent (entries : list LazyLoad.entry) (st : LazyLoad.state) :
  LazyLoad.callback entries (LazyLoad.callback entries st) = LazyLoad.callback entries st ∧
  (∀ i, (∀ e, e ∈ entries -> LazyLoad.isIntersecting e = true -> LazyLoad.target e ≠ i) ->
     LazyLoad.images (LazyLoad.callback entries st) i = LazyLoad.images st i ∧
     (i ∈ LazyLoad.observed (LazyLoad.callback entries st) ↔ i ∈ LazyLoad.observed st)) ∧
  LazyLoad.observed (LazyLoad.callback entries st) ⊆ LazyLoad.observed st.
Proof.
  split; [|split].
  - apply callback_fixed. intros e Hin He. by apply callback_settles.
  - intros i. apply callback_frame.
  - intros i. apply callback_observed_shrinks.
Qed.

(** ** What the listeners do to an image, taken together *)



(** X12: an image whose first source fails to load and that is lazy:
    the error listener hides it and puts a placeholder before it; when it
    then becomes visible the observer callback gives it its deferred source
    but it stays hidden behind the placeholder; and if that source fails
    too, a second placeholder is put before it. *)
Theorem failed_lazy_image (e : Runtime.env) (rt : Runtime.runtime) (i p : nat)
    (s : string) (pre post : list child) :
  parentNode (Runtime.rt_images rt i) = Some p ->
  Runtime.rt_tree rt !!! p = pre ++ CImg i :: post ->
  CImg i ∉ pre ->
  data_src (Runtime.rt_images rt i) = Some s -> s ≠ "" ->
  ∃ rt1 rt2 rt3,
    Runtime.run e (HImgError i) Runtime.EvError rt = Normal (rt1, []) ∧
    Runtime.run e HIntersection
      (Runtime.EvIntersection [{| LazyLoad.target := i; LazyLoad.isIntersecting := true |}])
      rt1 = Normal (rt2, []) ∧
    Runtime.run e (HImgError i) Runtime.EvError rt2 = Normal (rt3, []) ∧
    Runtime.rt_tree rt1 !!! p = pre ++ ErrorFallback.placeholder :: CImg i :: post ∧
    src (Runtime.rt_images rt2 i) = Some s ∧
    data_src (Runtime.rt_images rt2 i) = None ∧
    display (Runtime.rt_images rt2 i) = "none" ∧
    Runtime.rt_tree rt2 !!! p = pre ++ ErrorFallback.placeholder :: CImg i :: post ∧
    Runtime.rt_tree rt3 !!! p =
      pre ++ ErrorFallback.placeholder :: ErrorFallback.placeholder :: CImg i :: post.
Proof.
  intros Hp Hkids Hpre Hs Hne.
  set (tree1 := <[p := pre ++ ErrorFallback.placeholder :: CImg i :: post]> (Runtime.rt_tree rt)).
  set (imgs1 := alter ErrorFallback.hide i (Runtime.rt_images rt)).
  set (rt1 := Runtime.withDom {| ErrorFallback.images := imgs1; ErrorFallback.tree := tree1 |} rt).
  set (imgs2 := alter LazyLoad.load i imgs1).
  set (rt2 := Runtime.withLazy
                {| LazyLoad.images := imgs2;
                   LazyLoad.observed := Runtime.rt_observed rt ∖ {[ i ]} |} rt1).
  assert (H1 : Runtime.run e (HImgError i) Runtime.EvError rt = Normal (rt1, [])).
  { cbn. by rewrite (onError_attached i p pre post (Runtime.domOf rt) Hp Hkids Hpre). }
  assert (Himg1 : imgs1 i = ErrorFallback.hide (Runtime.rt_images rt i))
    by (unfold imgs1; by rewrite fn_lookup_alter).
  assert (H2 : Runtime.run e HIntersection
                 (Runtime.EvIntersection
                    [{| LazyLoad.target := i; LazyLoad.isIntersecting := true |}]) rt1
               = Normal (rt2, [])).
  { cbn. unfold LazyLoad.onEntry. cbn [LazyLoad.isIntersecting LazyLoad.target].
    cbv zeta. cbn [Runtime.lazyOf LazyLoad.images LazyLoad.observed rt1 Runtime.withDom
                   Runtime.rt_images Runtime.rt_observed ErrorFallback.images].
    rewrite Himg1. unfold LazyLoad.hasDeferredSource at 1.
    cbn [ErrorFallback.hide data_src]. rewrite Hs.
    rewrite bool_decide_eq_false_2 by done. reflexivity. }
  assert (Himg2 : imgs2 i = LazyLoad.load (ErrorFallback.hide (Runtime.rt_images rt i)))
    by (unfold imgs2; by rewrite fn_lookup_alter, Himg1).
  assert (Htree1 : tree1 !!! p = (pre ++ [ErrorFallback.placeholder]) ++ CImg i :: post).
  { unfold tree1. rewrite lookup_total_insert_eq. by rewrite <- app_assoc. }
  assert (Hpre1 : CImg i ∉ pre ++ [ErrorFallback.placeholder]).
  { rewrite not_elem_of_app. split; [done|]. rewrite list_elem_of_singleton. discriminate. }
  eexists rt1, rt2, _. split; [exact H1|]. split; [exact H2|]. split.
  { cbn. rewrite (onError_attached i p (pre ++ [ErrorFallback.placeholder]) post
                    (Runtime.domOf rt2)); [reflexivity| | |done].
    - cbn. by rewrite Himg2.
    - exact Htree1. }
  split. { cbn. rewrite Htree1. by rewrite <- app_assoc. }
  split. { cbn. rewrite Himg2. cbn. exact Hs. }
  split. { cbn. by rewrite Himg2. }
  split. { cbn. by rewrite Himg2. }
  split. { cbn. rewrite Htree1. by rewrite <- app_assoc. }
  cbn. rewrite lookup_total_insert_eq. by rewrite <- app_assoc.
Qed.

Lemma failed_lazy_image_witness :
  let img := {| src := Some "img/thumb.jpg"; data_src := Some "img/full.jpg";
                classList := ["lazy"]; display := ""; parentNode := Some 7%nat |} in
  let rt := {| Runtime.rt_header := Header.init;
               Runtime.rt_touch := λ _, Touch.init;
               Runtime.rt_images := λ _, img;
               Runtime.rt_observed := {[ 0%nat ]};
               Runtime.rt_tree := {[ 7%nat := [CImg 0] ]};
               Runtime.rt_anchors := λ _, {| href := None; textContent := "" |};
               Runtime.rt_timers := [];
               Runtime.rt_linkNode := λ a, (100 + a)%nat |} in
  let e := {| Runtime.viewport := {| Header.pageYOffset := 0; Header.docScrollTop := 0;
                                     Header.innerWidth := 375 |};
              Runtime.now := 0;
              Runtime.querySelector := λ _, Normal None;
              Runtime.backLink := None |} in
  ∃ rt1 rt2,
    Runtime.run e (HImgError 0) Runtime.EvError rt = Normal (rt1, []) ∧
    Runtime.run e HIntersection
      (Runtime.EvIntersection [{| LazyLoad.target := 0; LazyLoad.isIntersecting := true |}])
      rt1 = Normal (rt2, []) ∧
    src (Runtime.rt_images rt2 0) = Some "img/full.jpg" ∧
    display (Runtime.rt_images rt2 0) = "none".
Proof.
  cbv zeta.
  destruct (failed_lazy_image
    {| Runtime.viewport := {| Header.pageYOffset := 0; Header.docScrollTop := 0;
                              Header.innerWidth := 375 |};
       Runtime.now := 0;
       Runtime.querySelector := λ _, Normal None;
       Runtime.backLink := None |}
    {| Runtime.rt_header := Header.init;
       Runtime.rt_touch := λ _, Touch.init;
       Runtime.rt_images := λ _,
         {| src := Some "img/thumb.jpg"; data_src := Some "img/full.jpg";
            classList := ["lazy"]; display := ""; parentNode := Some 7%nat |};
       Runtime.rt_observed := {[ 0%nat ]};
       Runtime.rt_tree := {[ 7%nat := [CImg 0] ]};
       Runtime.rt_anchors := λ _, {| href := None; textContent := "" |};
       Runtime.rt_timers := [];
       Runtime.rt_linkNode := λ a, (100 + a)%nat |}
    0%nat 7%nat "img/full.jpg" [] [])
    as (rt1 & rt2 & rt3 & H1 & H2 & _ & _ & Hsrc & _ & Hdisp & _).
  - reflexivity.
  - reflexivity.
  - intros H. by apply elem_of_nil in H.
  - reflexivity.
  - discriminate.
  - exists rt1, rt2. done.
Defined.

(** ** The header over a whole scroll sequence *)

Lemma onScroll_hidden_iff v st :
  Header.transform (Header.onScroll v st) = Header.hidden ↔
  Header.innerWidth v <= 768 ∧ Header.scrollTop_of v > 100 ∧
  Header.scrollTop_of v > Header.lastScrollTop st.
Proof.
  destruct (decide (Header.innerWidth v <= 768)) as [Hw|Hw].
  - rewrite (onScroll_narrow v st Hw).
    destruct (decide _) as [[H1 H2]|Hn]; [done|].
    split; [discriminate | tauto].
  - rewrite (onScroll_wide v st) by lia. split; [discriminate | tauto].
Qed.

Lemma desktop_iff_wide (w : Z) :
  Breakpoint.getBreakpoint w = "desktop" ↔ 768 < w.
Proof.
  unfold Breakpoint.getBreakpoint. cbv zeta.
  repeat case_bool_decide; split; intros; try done; lia.
Qed.

(** X13: in any scroll sequence, from any state, the header is hidden
    after the k-th event exactly when that event came at a width of at most
    768 (a breakpoint other than "desktop") with an offset above 100 and
    above the offset of the event before it (for the first event: above the
    offset recorded in the state); so it is shown after every event that
    does not scroll further down, and whenever the offset is 100 or less. *)
Theorem header_hidden_iff_scrolled_down (vs : list Header.viewport) (st : Header.state)
    (k : nat) :
  Header.trace vs st !! k = Some Header.hidden ↔
  ∃ v, vs !! k = Some v ∧
       Header.innerWidth v <= 768 ∧
       Breakpoint.getBreakpoint (Header.innerWidth v) ≠ "desktop" ∧
       Header.scrollTop_of v > 100 ∧
       Header.scrollTop_of v >
         match k with
         | O => Header.lastScrollTop st
         | S k' => default 0 (Header.scrollTop_of <$> vs !! k')
         end.
Proof.
  revert st k. induction vs as [|v vs IH]; intros st k.
  - cbn. rewrite lookup_nil. split; [discriminate | by intros (v & [=] & _)].
  - destruct k as [|k]; cbn [Header.trace]; cbv zeta.
    + cbn [lookup list_lookup]. split.
      * intros [= Hh]. apply onScroll_hidden_iff in Hh as (Hw & H100 & Hlast).
        exists v. repeat split; try done. rewrite desktop_iff_wide. lia.
      * intros (v' & [= <-] & Hw & _ & H100 & Hlast). f_equal.
        by apply onScroll_hidden_iff.
    + change ((Header.transform (Header.onScroll v st) ::
               Header.trace vs (Header.onScroll v st)) !! S k)
        with (Header.trace vs (Header.onScroll v st) !! k).
      rewrite IH. change ((v :: vs) !! S k) with (vs !! k).
      destruct k as [|k]; [|done].
      by rewrite onScroll_lastScrollTop.
Qed.

(** ** Keys on a grid item *)

(** X14: on a grid item with a link, whatever the key, the keydown
    listener completes and does one of three things: nothing; prevent the
    default and click the item's link (Enter and Space only); or prevent the
    default and focus a neighbour (ArrowRight the next item, ArrowLeft the
    previous one), which is always an item of the grid. It never focuses
    the item itself or anything outside the grid, and never both clicks and
    moves focus. *)
Theorem grid_keydown_effects (n index : nat) (link : elem) (key : string) :
  (index < n)%nat ->
  ∃ effs, Grid.onKeydown n index (Some link) key = Normal effs ∧
    (effs = [] ∨
     (effs = [PreventDefault; Click link] ∧ (key = "Enter" ∨ key = " ")) ∨
     (∃ j, effs = [PreventDefault; Focus (EGridItem j)] ∧ (j < n)%nat ∧
           ((key = "ArrowRight" ∧ j = (index + 1)%nat) ∨
            (key = "ArrowLeft" ∧ (j + 1)%nat = index)))).
Proof.
  intros Hi. unfold Grid.onKeydown, isActivationKey.
  destruct (decide (key = "Enter")) as [->|HnE].
  { eexists. split; [reflexivity|]. right; left. by split; [|left]. }
  destruct (decide (key = " ")) as [->|HnS].
  { eexists. split; [reflexivity|]. right; left. by split; [|right]. }
  rewrite (bool_decide_eq_false_2 (key = "Enter")) by done.
  rewrite (bool_decide_eq_false_2 (key = " ")) by done.
  cbn [orb mbind completion_bind].
  destruct (decide (key = "ArrowRight")) as [->|HnR].
  { rewrite (bool_decide_eq_true_2 ("ArrowRight" = "ArrowRight")) by done. cbn [andb].
    case_bool_decide as Hlt.
    - rewrite grid_item_in_range by lia. cbn. eexists. split; [reflexivity|].
      right; right. exists (Z.to_nat (Z.of_nat index + 1)).
      split; [done|]. split; [lia|]. left. split; [done | lia].
    - rewrite (bool_decide_eq_false_2 ("ArrowRight" = "ArrowLeft")) by done. cbn.
      eexists. split; [reflexivity | by left]. }
  rewrite (bool_decide_eq_false_2 (key = "ArrowRight")) by done. cbn [andb].
  destruct (decide (key = "ArrowLeft")) as [->|HnL].
  { rewrite (bool_decide_eq_true_2 ("ArrowLeft" = "ArrowLeft")) by done. cbn [andb].
    case_bool_decide as Hgt.
    - rewrite grid_item_in_range by lia. cbn. eexists. split; [reflexivity|].
      right; right. exists (Z.to_nat (Z.of_nat index - 1)).
      split; [done|]. split; [lia|]. right. split; [done | lia].
    - cbn. eexists. split; [reflexivity | by left]. }
  rewrite (bool_decide_eq_false_2 (key = "ArrowLeft")) by done. cbn.
  eexists. split; [reflexivity | by left].
Qed.

Lemma grid_keydown_effects_witness :
  ∃ effs, Grid.onKeydown 5 2 (Some (ELink 2)) "ArrowLeft" = Normal effs ∧
          effs = [PreventDefault; Focus (EGridItem 1)].
Proof.
  destruct (grid_keydown_effects 5 2 (ELink 2) "ArrowLeft") as (effs & Hrun & Hshape).
  - lia.
  - exists effs. split; [exact Hrun|].
    cbn in Hrun. by injection Hrun as <-.
Defined.

(** ** Touch gestures: the latch, and touchends that come in pairs *)

(** X15: once the scrolling flag is set, nothing that follows activates
    the link until the next touchstart: every touchmove and touchend is
    without effect and the flag stays set. *)
Theorem touch_scroll_latch (link : elem) (evs : list Touch.event) (st : Touch.state) :
  Forall (λ ev, Touch.isTouchStart ev = false) evs ->
  Touch.isTouchScrolling st = true ->
  ∃ st', Touch.run (Some link) evs st = Normal (st', replicate (length evs) []) ∧
         Touch.isTouchScrolling st' = true.
Proof.
  intros Hns. revert st. induction Hns as [|ev evs Hev _ IH]; intros st Hflag.
  - by exists st.
  - destruct ev as [t y|y|t]; [discriminate Hev| |].
    + assert (Hflag' : Touch.isTouchScrolling (Touch.onTouchMove y st) = true)
        by (apply onTouchMove_flag; by left).
      destruct (IH _ Hflag') as (st' & Hrun & Hst').
      exists st'. cbn. rewrite Hrun. by split.
    + destruct (IH _ Hflag) as (st' & Hrun & Hst').
      exists st'. cbn. rewrite onTouchEnd_linked. unfold Touch.isTap. cbv zeta.
      rewrite Hflag. cbn. rewrite Hrun. by split.
Qed.

Lemma touch_scroll_latch_witness :
  ∃ st', Touch.run (Some (ELink 0))
           [Touch.TouchMove 101; Touch.TouchEnd 50; Touch.TouchEnd 60]
           {| Touch.touchStartTime := 0; Touch.touchStartY := 100;
              Touch.isTouchScrolling := true |}
         = Normal (st', [[]; []; []]).
Proof.
  destruct (touch_scroll_latch (ELink 0)
              [Touch.TouchMove 101; Touch.TouchEnd 50; Touch.TouchEnd 60]
              {| Touch.touchStartTime := 0; Touch.touchStartY := 100;
                 Touch.isTouchScrolling := true |})
    as (st' & Hrun & _).
  - repeat constructor.
  - reflexivity.
  - by exists st'.
Defined.

(** X16: a touchend does not end the gesture: after a touchstart with no
    far touchmove, every touchend that comes less than 500 ms after the
    touchstart activates the link, however many there are (two fingers
    lifted one after the other click the link twice). *)
Theorem touch_every_touchend_activates (link : elem) (t0 y0 : Z) (ends : list Z)
    (st : Touch.state) :
  Touch.run (Some link) (Touch.TouchStart t0 y0 :: (Touch.TouchEnd <$> ends)) st =
    Normal (Touch.onTouchStart t0 y0 st,
            [] :: ((λ t, if bool_decide (t - t0 < 500)
                         then [PreventDefault; Click link] else []) <$> ends)).
Proof.
  cbn [Touch.run Touch.step mbind completion_bind fst snd].
  set (s := Touch.onTouchStart t0 y0 st).
  assert (H : Touch.run (Some link) (Touch.TouchEnd <$> ends) s =
              Normal (s, (λ t, if bool_decide (t - t0 < 500)
                               then [PreventDefault; Click link] else []) <$> ends)).
  { induction ends as [|t ends IH]; [done|].
    cbn [fmap list_fmap Touch.run Touch.step]. rewrite onTouchEnd_linked.
    cbn [mbind completion_bind fst snd]. fold (@fmap list _ Z Touch.event Touch.TouchEnd ends).
    rewrite IH. reflexivity. }
  by rewrite H.
Qed.
